(** * A retrieval-and-answer pipeline over a repository: model and properties

    The development embeds the two scripts of the repository, the main
    pipeline ([repo-rag.js]) and its instrumented copy ([repo-rag-debug.js]):
    the keyword retriever, the prompt assembly, the generator adapter with its
    rule-based answer extractor, and the chain that sequences them.

    JavaScript strings are modelled as [string]: a sequence of code units,
    each of them in the range 0..255 (ISO-8859-1 text).  On that range every
    string primitive below follows ECMAScript exactly. *)

From Stdlib Require Import String Ascii List Arith ZArith Bool Lia Sorted.
From Stdlib Require QArith.
Import ListNotations.
Open Scope list_scope.
Open Scope string_scope.
Open Scope nat_scope.

(** ** Code units *)

Definition LF : ascii := "010"%char.
Definition CR : ascii := "013"%char.

Definition code (c : ascii) : nat := nat_of_ascii c.

Definition between (lo hi n : nat) : bool := (lo <=? n) && (n <=? hi).

(** [WhiteSpace] and [LineTerminator] of ECMAScript, restricted to 0..255:
    TAB, LF, VT, FF, CR, SP and NBSP. *)
Definition isWhiteSpace (c : ascii) : bool :=
  between 9 13 (code c) || (code c =? 32) || (code c =? 160).

Definition isLineTerminator (c : ascii) : bool :=
  (code c =? 10) || (code c =? 13).

Definition isDigit (c : ascii) : bool := between 48 57 (code c).

(** Letters with a lower-case mapping: A-Z, and U+00C0..U+00DE but U+00D7. *)
Definition isUpper (c : ascii) : bool :=
  between 65 90 (code c) || (between 192 222 (code c) && negb (code c =? 215)).

Definition toLowerChar (c : ascii) : ascii :=
  if isUpper c then ascii_of_nat (code c + 32) else c.

(** Letters whose upper-case mapping is one code unit of the same range:
    a-z, and U+00E0..U+00FE but U+00F7. *)
Definition isLower (c : ascii) : bool :=
  between 97 122 (code c) || (between 224 254 (code c) && negb (code c =? 247)).

(** [Canonicalize] of the pattern semantics under the [i] flag (no [u] flag):
    the upper-case mapping.  U+00B5, U+00DF and U+00FF map outside the range or
    to two code units; they stand for themselves, which no other code unit of
    the range canonicalizes to. *)
Definition Canonicalize (c : ascii) : ascii :=
  if isLower c then ascii_of_nat (code c - 32) else c.

(** ** String.prototype *)

Fixpoint toLowerCase (s : string) : string :=
  match s with
  | EmptyString => EmptyString
  | String c s' => String (toLowerChar c) (toLowerCase s')
  end.

Definition startsWith (s searchString : string) : bool := prefix searchString s.

Fixpoint includes (s searchString : string) : bool :=
  startsWith s searchString ||
  match s with
  | EmptyString => false
  | String _ s' => includes s' searchString
  end.

(** [indexOf]: the least position at which [searchString] occurs ([None]
    stands for -1). *)
Fixpoint indexOf (s searchString : string) : option nat :=
  if startsWith s searchString then Some 0
  else match s with
       | EmptyString => None
       | String _ s' => option_map S (indexOf s' searchString)
       end.

Fixpoint drop (n : nat) (s : string) : string :=
  match n, s with
  | S n', String _ s' => drop n' s'
  | _, _ => s
  end.

Fixpoint take (n : nat) (s : string) : string :=
  match n, s with
  | S n', String c s' => String c (take n' s')
  | _, _ => EmptyString
  end.

(** Every code unit of [s] satisfies [p]. *)
Fixpoint allChars (p : ascii -> bool) (s : string) : bool :=
  match s with
  | EmptyString => true
  | String c s' => p c && allChars p s'
  end.

(** [s.substring(0, n)]. *)
Definition substring0 (n : nat) (s : string) : string := take n s.

(** [array.join(separator)] on an array of strings. *)
Definition join (separator : string) (l : list string) : string :=
  String.concat separator l.

(** [s.split(/\s+/)]: the pieces between the maximal runs of white space; a
    run at either end leaves an empty piece there, and the empty string
    splits into one empty piece.  [cur] is the piece being read, reversed;
    [inRun] tells that the previous code unit was white space. *)
Fixpoint revString (acc s : string) : string :=
  match s with
  | EmptyString => acc
  | String c s' => revString (String c acc) s'
  end.

Fixpoint splitRuns (s : string) (cur : string) (inRun : bool) : list string :=
  match s with
  | EmptyString => [revString "" cur]
  | String c s' =>
      if isWhiteSpace c
      then if inRun then splitRuns s' cur true
           else revString "" cur :: splitRuns s' "" true
      else splitRuns s' (String c cur) false
  end.

Definition split_whitespace (s : string) : list string := splitRuns s "" false.

(** [GetSubstitution] for a string pattern (no captures): [$$] is a dollar
    sign, [$&] the matched text, [$`] the text before the match and [$'] the
    text after it; every other dollar sign stands for itself. *)
Fixpoint GetSubstitution (matched before after replacement : string) : string :=
  match replacement with
  | EmptyString => EmptyString
  | String c rest =>
      if Ascii.eqb c "$" then
        match rest with
        | String d rest' =>
            if Ascii.eqb d "$" then
              String "$" (GetSubstitution matched before after rest')
            else if Ascii.eqb d "&" then
              matched ++ GetSubstitution matched before after rest'
            else if Ascii.eqb d "`" then
              before ++ GetSubstitution matched before after rest'
            else if Ascii.eqb d "'" then
              after ++ GetSubstitution matched before after rest'
            else String c (GetSubstitution matched before after rest)
        | EmptyString => String c EmptyString
        end
      else String c (GetSubstitution matched before after rest)
  end.

(** [s.replace(searchString, replaceValue)] with two strings: the first
    occurrence only. *)
Definition replace (s searchString replaceValue : string) : string :=
  match indexOf s searchString with
  | None => s
  | Some pos =>
      let before := take pos s in
      let after := drop (pos + String.length searchString) s in
      before ++ GetSubstitution searchString before after replaceValue ++ after
  end.

(** ** Regular expressions

    The abstract syntax covers the patterns of the two scripts and the
    patterns made of characters, [.] and the quantifiers [*], [+], [?]; the
    matcher is the backtracking matcher of ECMAScript (continuation passing,
    the alternatives tried in priority order). *)

Inductive CharacterClassEscape := Escape_d | Escape_s | Escape_S.

Inductive Atom :=
| PatternCharacter (c : ascii)
| Dot
| AtomEscape (e : CharacterClassEscape)
| CharacterClass (members : list CharacterClassEscape).

Record Quantifier := { q_min : nat; q_max : option nat; q_greedy : bool }.

Definition star (greedy : bool) := {| q_min := 0; q_max := None; q_greedy := greedy |}.
Definition plus (greedy : bool) := {| q_min := 1; q_max := None; q_greedy := greedy |}.
Definition opt (greedy : bool) := {| q_min := 0; q_max := Some 1; q_greedy := greedy |}.

Inductive Regex :=
| Empty
| Term (a : Atom)
| Repeat (a : Atom) (q : Quantifier)
| Seq (r1 r2 : Regex)
| Disjunction (r1 r2 : Regex)
| Optional (r : Regex)
| Group (n : nat) (r : Regex).

Definition classEscapeMatches (e : CharacterClassEscape) (c : ascii) : bool :=
  match e with
  | Escape_d => isDigit c
  | Escape_s => isWhiteSpace c
  | Escape_S => negb (isWhiteSpace c)
  end.

Definition atomMatches (ignoreCase : bool) (a : Atom) (c : ascii) : bool :=
  match a with
  | PatternCharacter p =>
      if ignoreCase then Ascii.eqb (Canonicalize p) (Canonicalize c)
      else Ascii.eqb p c
  | Dot => negb (isLineTerminator c)
  | AtomEscape e => classEscapeMatches e c
  | CharacterClass members => existsb (fun e => classEscapeMatches e c) members
  end.

Definition Captures := list (nat * string).

Fixpoint capture (n : nat) (caps : Captures) : option string :=
  match caps with
  | [] => None
  | (m, s) :: caps' => if m =? n then Some s else capture n caps'
  end.

(** A match state: the input that remains, and the captures so far. *)
Definition MatchState : Type := string * Captures.
Definition Continuation := MatchState -> option MatchState.

(** [RepeatMatcher] for a quantified atom.  An atom consumes one code unit,
    so the repetition descends the input. *)
Fixpoint RepeatMatcher (ignoreCase : bool) (a : Atom) (greedy : bool)
    (c : Continuation) (min : nat) (max : option nat) (caps : Captures)
    (s : string) {struct s} : option MatchState :=
  match max with
  | Some 0 => c (s, caps)
  | _ =>
      match s with
      | EmptyString => if min =? 0 then c (s, caps) else None
      | String ch s' =>
          let m := fun _ : unit =>
            if atomMatches ignoreCase a ch
            then RepeatMatcher ignoreCase a greedy c (pred min) (option_map pred max) caps s'
            else None in
          if negb (min =? 0) then m tt
          else if greedy then
            match m tt with Some z => Some z | None => c (s, caps) end
          else
            match c (s, caps) with Some z => Some z | None => m tt end
      end
  end.

Fixpoint matcher (ignoreCase : bool) (r : Regex) (c : Continuation)
    (x : MatchState) : option MatchState :=
  match r with
  | Empty => c x
  | Term a =>
      match fst x with
      | String ch s' => if atomMatches ignoreCase a ch then c (s', snd x) else None
      | EmptyString => None
      end
  | Repeat a q =>
      RepeatMatcher ignoreCase a (q_greedy q) c (q_min q) (q_max q) (snd x) (fst x)
  | Seq r1 r2 => matcher ignoreCase r1 (matcher ignoreCase r2 c) x
  | Disjunction r1 r2 =>
      match matcher ignoreCase r1 c x with
      | Some y => Some y
      | None => matcher ignoreCase r2 c x
      end
  | Optional r1 =>
      (* an iteration that consumes nothing is rejected *)
      match matcher ignoreCase r1
              (fun y => if String.length (fst y) =? String.length (fst x) then None else c y) x with
      | Some z => Some z
      | None => c x
      end
  | Group n r1 =>
      matcher ignoreCase r1
        (fun y => c (fst y, (n, take (String.length (fst x) - String.length (fst y)) (fst x)) :: snd y)) x
  end.

(** A regular expression object: its pattern and the [i] flag. *)
Record RegExp := { source : Regex; ignoreCase : bool }.

(** The array a successful match yields: its position, the matched text
    (element 0 of the array) and the capture groups. *)
Record MatchResult := { index : nat; matched : string; groups : Captures }.

(** Element [n] of the match array, for a group that took part. *)
Definition group (n : nat) (m : MatchResult) : string :=
  match capture n (groups m) with Some s => s | None => "" end.

Definition matchAt (re : RegExp) (s : string) : option MatchState :=
  matcher (ignoreCase re) (source re) (fun y => Some y) (s, []).

(** The search of [RegExpBuiltinExec] from position [i] on: the first
    position where the pattern matches. *)
Fixpoint execFrom (re : RegExp) (s : string) (i : nat) : option MatchResult :=
  match matchAt re s with
  | Some (rest, caps) =>
      Some {| index := i; matched := take (String.length s - String.length rest) s; groups := caps |}
  | None =>
      match s with
      | EmptyString => None
      | String _ s' => execFrom re s' (S i)
      end
  end.

(** [s.match(re)] for a regular expression without the [g] flag; [None] is
    [null]. *)
Definition String_match (s : string) (re : RegExp) : option MatchResult :=
  execFrom re s 0.

(** The matches [s.match(re)] collects under the [g] flag: after a match the
    search resumes where it ended, one code unit further when it was empty.
    [skip] counts the code units of the last match still to pass. *)
Fixpoint matchesFrom (re : RegExp) (s : string) (skip : nat) : list string :=
  match skip with
  | S n =>
      match s with
      | EmptyString => []
      | String _ s' => matchesFrom re s' n
      end
  | 0 =>
      match matchAt re s with
      | Some (rest, _) =>
          let len := String.length s - String.length rest in
          take len s ::
          match s with
          | EmptyString => []
          | String _ s' => matchesFrom re s' (pred len)
          end
      | None =>
          match s with
          | EmptyString => []
          | String _ s' => matchesFrom re s' 0
          end
      end
  end.

(** [s.match(re)] under the [g] flag: [null] when nothing matches, the array
    of the matched texts otherwise. *)
Definition String_match_global (s : string) (re : RegExp) : option (list string) :=
  match matchesFrom re s 0 with
  | [] => None
  | l => Some l
  end.

(** The pattern of a string of pattern characters. *)
Fixpoint literal (s : string) : Regex :=
  match s with
  | EmptyString => Empty
  | String c s' => Seq (Term (PatternCharacter c)) (literal s')
  end.


(** ** Patterns given as strings

    [new RegExp(pattern, 'g')] reads its pattern from a string.  The reading
    below decides the patterns written with pattern characters, [.] and the
    quantifiers [*], [+], [?] (each possibly followed by the lazy mark [?]):
    on them the grammar of ECMAScript has no other production to offer.  A
    quantifier with no atom before it is the syntax error "nothing to
    repeat".  A pattern that uses another syntax character is [Beyond] the
    reading, which says nothing about it. *)

Inductive Parsed :=
| Pattern (r : Regex)
| NothingToRepeat
| Beyond.

Definition isQuantifierPrefix (c : ascii) : bool :=
  Ascii.eqb c "*" || Ascii.eqb c "+" || Ascii.eqb c "?".

(** The syntax characters other than [.] and the quantifier prefixes. *)
Definition isOtherSyntaxCharacter (c : ascii) : bool :=
  existsb (Ascii.eqb c)
    ["^"; "$"; "\"; "("; ")"; "["; "]"; "{"; "}"; "|"]%char.

Definition atomOf (c : ascii) : Atom :=
  if Ascii.eqb c "." then Dot else PatternCharacter c.

Definition quantifierOf (c : ascii) (greedy : bool) : Quantifier :=
  if Ascii.eqb c "*" then star greedy
  else if Ascii.eqb c "+" then plus greedy
  else opt greedy.

Definition andThen (r : Regex) (rest : Parsed) : Parsed :=
  match rest with
  | Pattern r' => Pattern (Seq r r')
  | other => other
  end.

Fixpoint parsePattern (p : string) : Parsed :=
  match p with
  | EmptyString => Pattern Empty
  | String c p1 =>
      if isQuantifierPrefix c then NothingToRepeat
      else if isOtherSyntaxCharacter c then Beyond
      else
        match p1 with
        | String q p2 =>
            if isQuantifierPrefix q then
              match p2 with
              | String l p3 =>
                  if Ascii.eqb l "?"
                  then andThen (Repeat (atomOf c) (quantifierOf q false)) (parsePattern p3)
                  else andThen (Repeat (atomOf c) (quantifierOf q true)) (parsePattern p2)
              | EmptyString =>
                  andThen (Repeat (atomOf c) (quantifierOf q true)) (parsePattern p2)
              end
            else andThen (Term (atomOf c)) (parsePattern p1)
        | EmptyString => andThen (Term (atomOf c)) (parsePattern p1)
        end
  end.

(** ** Completions and exceptions *)

(** A thrown value whose properties can be read, by what the scripts read
    of it: its name and its message, as the text a template literal makes
    of them (an [Error] object; for a value without a message the text is
    "undefined"). *)
Record JsError := { name : string; message : string }.

(** [null] and [undefined]: reading a property of them throws. *)
Inductive NullOrUndefined := null | undefined.

(** What a [throw] or a rejected promise carries: any value. *)
Inductive Thrown :=
| Exception (e : JsError)
| Nullish (v : NullOrUndefined).

Definition SyntaxError (msg : string) : Thrown :=
  Exception {| name := "SyntaxError"; message := msg |}.

(** How an evaluation completes: with a value, or with a thrown value. *)
Inductive Outcome (A : Type) :=
| Returns (a : A)
| Throws (e : Thrown).
Arguments Returns {A} a.
Arguments Throws {A} e.

Definition String_of_Nullish (v : NullOrUndefined) : string :=
  match v with
  | null => "null"
  | undefined => "undefined"
  end.

(** The [TypeError] of a read of [message] on [null] or [undefined], worded
    as V8 words it, the engine of Node.js. *)
Definition cannotRead (v : NullOrUndefined) : JsError :=
  {| name := "TypeError";
     message := "Cannot read properties of " ++ String_of_Nullish v
                ++ " (reading 'message')" |}.

(** [error.message]: the message of a value that has properties; on [null]
    and [undefined] the read throws. *)
Definition get_message (error : Thrown) : Outcome string :=
  match error with
  | Exception e => Returns (message e)
  | Nullish v => Throws (Exception (cannotRead v))
  end.

Definition obind {A B} (o : Outcome A) (k : A -> Outcome B) : Outcome B :=
  match o with
  | Returns a => k a
  | Throws e => Throws e
  end.

(** [array.map(f)] and [array.reduce(f, init)] with a callback that may
    throw: the elements are visited in order and the first exception ends
    the visit. *)
Fixpoint Array_map {A B} (f : A -> Outcome B) (l : list A) : Outcome (list B) :=
  match l with
  | [] => Returns []
  | x :: l' =>
      obind (f x) (fun y => obind (Array_map f l') (fun ys => Returns (y :: ys)))
  end.

Fixpoint Array_reduce {A B} (f : B -> A -> Outcome B) (l : list A) (init : B) : Outcome B :=
  match l with
  | [] => Returns init
  | x :: l' => obind (f init x) (fun acc => Array_reduce f l' acc)
  end.

(** ** The host's regular expressions

    The pipeline builds a regular expression from every keyword.  The engine
    is the host's: any implementation that agrees with ECMAScript on the
    patterns read above. *)

Record RegExpHost := {
  HostRegExp : Type;
  (** [new RegExp(pattern, 'g')] *)
  RegExp_new : string -> Outcome HostRegExp;
  (** [s.match(regex)] for such an object: [null] or the matched texts *)
  match_global : string -> HostRegExp -> option (list string);
  (** what the constructor throws is an object, never [null] or [undefined] *)
  host_throws : forall p e,
    RegExp_new p = Throws e -> exists err, e = Exception err;
  host_rejects : forall p,
    parsePattern p = NothingToRepeat ->
    exists msg, RegExp_new p = Throws (SyntaxError msg);
  host_accepts : forall p r,
    parsePattern p = Pattern r ->
    exists re, RegExp_new p = Returns re /\
      forall s, match_global s re =
                String_match_global s {| source := r; ignoreCase := false |}
}.

(** ** The data store, the generation service and the world *)

(** A chunk: its text and its metadata, which the pipeline never reads. *)
Record Document := { pageContent : string; metadata : list (string * string) }.

(** The object [{ doc, score: matchCount }]. *)
Record ScoredChunk := { doc : Document; score : nat }.

(** The argument of a request to the generation service. *)
Record TextGenerationArgs := {
  model : string;
  inputs : string;
  max_new_tokens : nat;
  temperature : QArith_base.Q
}.

Record TextGenerationOutput := { generated_text : option string }.

(** The client of the generation service: a call throws, or answers with a
    result that may be nullish ([None]) and whose text may be missing. *)
Record HfInference := {
  textGeneration : TextGenerationArgs -> Outcome (option TextGenerationOutput)
}.

(** What [ingestRepo] returns: the array of chunks, and the client when a
    credential is configured ([null] otherwise). *)
Record DataStore := { docs : list Document; hf : option HfInference }.

Inductive Channel := stdout | stderr.
Inductive Datum := Text (s : string) | Number (n : nat) | Flag (b : bool).

(** A line of diagnostics: the wording of the message (pictographs left
    out) and the values interpolated into it. *)
Record Diagnostic := { channel : Channel; wording : string; data : list Datum }.

(** The state a query runs in: the data store, the arrays of scored chunks
    allocated so far (a reference is a position in [arrays]), the requests
    sent to the generation service, and the console. *)
Record World := {
  dataStore : DataStore;
  arrays : list (list ScoredChunk);
  requests : list TextGenerationArgs;
  console : list Diagnostic
}.

(** A computation: from a world to the world it leaves and its
    completion. *)
Definition M (A : Type) : Type := World -> World * Outcome A.

Definition ret {A} (a : A) : M A := fun w => (w, Returns a).

Definition bind {A B} (m : M A) (k : A -> M B) : M B :=
  fun w =>
    match m w with
    | (w', Returns a) => k a w'
    | (w', Throws e) => (w', Throws e)
    end.

Notation "x <- m ;; k" := (bind m (fun x => k))
  (at level 61, m at next level, right associativity).
Notation "m ;;; k" := (bind m (fun _ => k))
  (at level 61, right associativity).

(** [try { body } catch (error) { handler }] *)
Definition tryCatch {A} (body : M A) (handler : Thrown -> M A) : M A :=
  fun w =>
    match body w with
    | (w', Returns a) => (w', Returns a)
    | (w', Throws e) => handler e w'
    end.

(** A completion that touches no part of the world. *)
Definition lift {A} (o : Outcome A) : M A := fun w => (w, o).

Definition getDataStore : M DataStore := fun w => (w, Returns (dataStore w)).

(** [console.log(...)] and [console.error(...)] *)
Definition console_write (ch : Channel) (text : string) (values : list Datum) : M unit :=
  fun w =>
    ({| dataStore := dataStore w; arrays := arrays w; requests := requests w;
        console := (console w ++ [{| channel := ch; wording := text; data := values |}])%list |},
     Returns tt).

Definition console_log := console_write stdout.
Definition console_error := console_write stderr.

(** A new array, and the reference to it; reading and writing the array
    behind a reference. *)
Definition allocate (a : list ScoredChunk) : M nat :=
  fun w =>
    ({| dataStore := dataStore w; arrays := (arrays w ++ [a])%list;
        requests := requests w; console := console w |},
     Returns (List.length (arrays w))).

Definition read (ref : nat) : M (list ScoredChunk) :=
  fun w => (w, Returns (nth ref (arrays w) [])).

Fixpoint update {A} (n : nat) (x : A) (l : list A) : list A :=
  match n, l with
  | 0, _ :: l' => x :: l'
  | S n', y :: l' => y :: update n' x l'
  | _, [] => []
  end.

Definition write (ref : nat) (a : list ScoredChunk) : M unit :=
  fun w =>
    ({| dataStore := dataStore w; arrays := update ref a (arrays w);
        requests := requests w; console := console w |},
     Returns tt).

(** [dataStore.docs.map(f)]: a new array. *)
Definition docs_map (f : Document -> Outcome ScoredChunk) : M nat :=
  ds <- getDataStore ;;
  a <- lift (Array_map f (docs ds)) ;;
  allocate a.

(** [array.sort(compare)]: the array is sorted in place, stably (ECMAScript
    2019), and the call returns the array itself.  A stable sort has one
    result, which insertion computes. *)
Fixpoint insert {A} (compare : A -> A -> Z) (x : A) (l : list A) : list A :=
  match l with
  | [] => [x]
  | y :: l' =>
      if (0 <? compare x y)%Z then y :: insert compare x l'
      else x :: y :: l'
  end.

Fixpoint sort {A} (compare : A -> A -> Z) (l : list A) : list A :=
  match l with
  | [] => []
  | x :: l' => insert compare x (sort compare l')
  end.

Definition Array_sort (ref : nat) (compare : ScoredChunk -> ScoredChunk -> Z) : M nat :=
  a <- read ref ;;
  write ref (sort compare a) ;;;
  ret ref.

(** [array.slice(start, end)]: a new array. *)
Definition Array_slice (ref : nat) (start stop : nat) : M nat :=
  a <- read ref ;;
  allocate (firstn (stop - start) (skipn start a)).

(** [hf.textGeneration(args)], awaited. *)
Definition call_textGeneration (client : HfInference) (args : TextGenerationArgs)
    : M (option TextGenerationOutput) :=
  fun w =>
    ({| dataStore := dataStore w; arrays := arrays w;
        requests := (requests w ++ [args])%list; console := console w |},
     textGeneration client args).

(** [array.map(f)] with a callback that reads a field: the new array holds
    strings and is not written again, so it is a value. *)
Definition Array_contents {A} (ref : nat) (f : ScoredChunk -> A) : M (list A) :=
  a <- read ref ;;
  ret (map f a).

(** [array.forEach((item, idx) => ...)] *)
Fixpoint forEach {A} (f : A -> nat -> M unit) (l : list A) (idx : nat) : M unit :=
  match l with
  | [] => ret tt
  | x :: l' => f x idx ;;; forEach f l' (S idx)
  end.

Definition Array_forEach (ref : nat) (f : ScoredChunk -> nat -> M unit) : M unit :=
  a <- read ref ;;
  forEach f a 0.

(** ** What the two scripts share, text for text *)

Definition nl : string := String LF "".

(** [prompt.template] *)
Definition prompt_template : string :=
  "Based on the following context, answer the question with a direct and exact answer. Be concise."
  ++ nl ++ nl ++ "Context:" ++ nl ++ "{context}" ++ nl ++ nl
  ++ "Question: {question}" ++ nl ++ nl ++ "Answer (direct answer only):".

(** The terms of a pattern, in sequence. *)
Definition seq (rs : list Regex) : Regex := fold_right Seq Empty rs.

(** The fixed texts the two patterns of [extractAnswer] open and close
    with. *)
Definition questionMarker : string := "Question: ".
Definition contextMarker : string := "Context:" ++ nl.
Definition closingMarker : string := nl ++ nl ++ "Question:".

(** [/Question: (.+?)\n/] *)
Definition questionPattern : RegExp :=
  {| source := seq [literal questionMarker; Group 1 (Repeat Dot (plus false)); literal nl];
     ignoreCase := false |}.

(** [/Context:\n([\s\S]+?)\n\nQuestion:/] *)
Definition contextPattern : RegExp :=
  {| source := seq [literal contextMarker;
                    Group 1 (Repeat (CharacterClass [Escape_s; Escape_S]) (plus false));
                    literal closingMarker];
     ignoreCase := false |}.

(** [/navdeep\s+singh/i] *)
Definition namePattern : RegExp :=
  {| source := seq [literal "navdeep"; Repeat (AtomEscape Escape_s) (plus true);
                    literal "singh"];
     ignoreCase := true |}.

(** The pattern for a span of experience, under the [i] flag; its terms
    are listed one by one. *)
Definition experiencePattern : RegExp :=
  {| source := seq [Group 1 (Repeat (AtomEscape Escape_d) (plus true)); (* (\d+) *)
                    Repeat (AtomEscape Escape_s) (star true);           (* \s* *)
                    Disjunction (literal "year") (literal "yr");        (* (?:year|yr) *)
                    Repeat (PatternCharacter "s") (opt true);           (* s? *)
                    Repeat (AtomEscape Escape_s) (star true);           (* \s* *)
                    Optional (seq [literal "of";
                                   Repeat (AtomEscape Escape_s) (star true)]); (* (?:of\s* )? *)
                    Disjunction (literal "experience") (literal "exp")]; (* (?:experience|exp) *)
     ignoreCase := true |}.

Definition skills : list string :=
  ["React"; "JavaScript"; "NodeJS"; "ExpressJS"; "Redux"; "HTML5"; "CSS3"; "jQuery"].

(** The answer of the adapter without a credential. *)
Definition unavailable : string := "Unable to generate answer - HF_API_KEY not set".

(** The two fields [extractAnswer] reads back from a prompt:
    [questionMatch ? questionMatch[1].toLowerCase() : ''] and the same for
    the context. *)
Definition parsedQuestion (input : string) : string :=
  match String_match input questionPattern with
  | Some questionMatch => toLowerCase (group 1 questionMatch)
  | None => ""
  end.

Definition parsedContext (input : string) : string :=
  match String_match input contextPattern with
  | Some contextMatch => toLowerCase (group 1 contextMatch)
  | None => ""
  end.

(** The three rules, by the test that selects them. *)
Definition asksName (question : string) : bool :=
  includes question "name" && includes question "portfolio".

Definition asksExperience (question : string) : bool :=
  includes question "experience" && includes question "year".

Definition asksSkills (question : string) : bool :=
  includes question "skill" || includes question "technology".

(** [nameMatch ? nameMatch[0] : 'Navdeep Singh'] *)
Definition nameAnswer (context : string) : string :=
  match String_match context namePattern with
  | Some nameMatch => matched nameMatch
  | None => "Navdeep Singh"
  end.

(** [expMatch ? `${expMatch[1]} years` : '...'] *)
Definition experienceAnswer (context : string) : string :=
  match String_match context experiencePattern with
  | Some expMatch => group 1 expMatch ++ " years"
  | None => "Experience duration not found in context"
  end.

(** The score callback of [dataStore.docs.map]: the matches of every
    keyword in the lower-cased content, added up. *)
Definition scoreDocument (host : RegExpHost) (keywords : list string)
    (doc : Document) : Outcome ScoredChunk :=
  let contentLower := toLowerCase (pageContent doc) in
  obind
    (Array_reduce
       (fun count kw =>
          obind (RegExp_new host kw) (fun regex =>
            Returns (count + List.length
                       (match match_global host contentLower regex with
                        | Some matches => matches
                        | None => []
                        end))))
       keywords 0)
    (fun matchCount => Returns {| doc := doc; score := matchCount |}).

(** [(a, b) => b.score - a.score] *)
Definition byScoreDescending (a b : ScoredChunk) : Z :=
  (Z.of_nat (score b) - Z.of_nat (score a))%Z.

(** [questionLower.split(/\s+/).filter(w => w.length > 2)] *)
Definition keywordsOf (question : string) : list string :=
  let questionLower := toLowerCase question in
  filter (fun w => 2 <? String.length w) (split_whitespace questionLower).

(** [template.replace('{context}', context).replace('{question}', question)] *)
Definition fullPromptOf (context question : string) : string :=
  replace (replace prompt_template "{context}" context) "{question}" question.

(** The argument of [hf.textGeneration]: the model [gpt2], the prompt, and
    the parameters [max_new_tokens: 50], [temperature: 0.7]. *)
Definition generationRequest (promptText : string) : TextGenerationArgs :=
  {| model := "gpt2"; inputs := promptText; max_new_tokens := 50;
     temperature := QArith_base.Qmake 7 10 |}.

(** The world after a run that allocated the arrays [new], sent the
    requests [sent] and wrote the lines [lines]. *)
Definition after (w : World) (new : list (list ScoredChunk))
    (sent : list TextGenerationArgs) (lines : list Diagnostic) : World :=
  {| dataStore := dataStore w;
     arrays := (arrays w ++ new)%list;
     requests := (requests w ++ sent)%list;
     console := (console w ++ lines)%list |}.

(** ** The main script *)

Module RepoRag.
Section Chain.
Variable host : RegExpHost.

(** [retriever.invoke]: the chunks are scored, the scores sorted, and the
    contents of the first six joined with a blank line. *)
Definition retriever_invoke (question : string) : M string :=
  let keywords := keywordsOf question in
  scores <- docs_map (scoreDocument host keywords) ;;
  sorted <- Array_sort scores byScoreDescending ;;
  top <- Array_slice sorted 0 6 ;;
  contents <- Array_contents top (fun s => pageContent (doc s)) ;;
  ret (join (nl ++ nl) contents).

(** [llm.extractAnswer] *)
Definition extractAnswer (input : string) : string :=
  let question := parsedQuestion input in
  let context := parsedContext input in
  if asksName question then nameAnswer context
  else if asksExperience question then experienceAnswer context
  else if asksSkills question then
    let found := filter (fun s => includes context (toLowerCase s)) skills in
    if 0 <? List.length found then join ", " found
    else "Skills not clearly specified"
  else input.

(** [llm.invoke].  [input] is a string, so [promptText] is [input] itself.
    The question is read from the prompt and not used; no request is
    made. *)
Definition llm_invoke (input : string) : M string :=
  ds <- getDataStore ;;
  match hf ds with
  | None => ret unavailable
  | Some _ =>
      tryCatch
        (let promptText := input in
         let questionMatch := String_match promptText questionPattern in
         let question :=
           match questionMatch with Some m => group 1 m | None => "" end in
         ret (extractAnswer promptText))
        (fun error =>
           msg <- lift (get_message error) ;;
           console_error "LLM error:" [Text msg] ;;;
           ret (extractAnswer input))
  end.

(** [chain.invoke] *)
Definition chain_invoke (question : string) : M string :=
  tryCatch
    (context <- retriever_invoke question ;;
     let fullPrompt := fullPromptOf context question in
     response <- llm_invoke fullPrompt ;;
     ret response)
    (fun error =>
       msg <- lift (get_message error) ;;
       console_error "Chain error:" [Text msg] ;;;
       msg' <- lift (get_message error) ;;
       ret ("Error: " ++ msg')).

End Chain.
End RepoRag.

(** ** The instrumented script *)

Module RepoRagDebug.
Section Chain.
Variable host : RegExpHost.

(** [retriever.invoke], with its diagnostics; the first six scores are
    sliced twice, once to be shown and once to be returned. *)
Definition retriever_invoke (question : string) : M string :=
  console_log "RETRIEVER DEBUG:" [] ;;;
  console_log "Original Question:" [Text question] ;;;
  let keywords := keywordsOf question in
  console_log "Extracted Keywords:" [Text (join ", " keywords)] ;;;
  scores <- docs_map (scoreDocument host keywords) ;;
  sorted <- Array_sort scores byScoreDescending ;;
  console_log "Top 6 Matching Documents:" [] ;;;
  shown <- Array_slice sorted 0 6 ;;
  Array_forEach shown (fun item idx =>
    console_log "Score: | Content preview:"
      [Number (idx + 1); Number (score item);
       Text (substring0 80 (pageContent (doc item)))]) ;;;
  top <- Array_slice sorted 0 6 ;;
  contents <- Array_contents top (fun s => pageContent (doc s)) ;;
  let context := join (nl ++ nl) contents in
  console_log "Retrieved context (chars)" [Number (String.length context)] ;;;
  ret context.

(** [llm.extractAnswer], with its diagnostics *)
Definition extractAnswer (input : string) : M string :=
  console_log "FALLBACK: ANSWER EXTRACTION DEBUG:" [] ;;;
  let question := parsedQuestion input in
  let context := parsedContext input in
  console_log "Extracted Question:" [Text question] ;;;
  console_log "Context length: chars" [Number (String.length context)] ;;;
  if asksName question then
    console_log "Pattern: Looking for NAME" [] ;;;
    let answer := nameAnswer context in
    console_log "Found:" [Text answer] ;;;
    ret answer
  else if asksExperience question then
    console_log "Pattern: Looking for YEARS OF EXPERIENCE" [] ;;;
    let answer := experienceAnswer context in
    console_log "Found:" [Text answer] ;;;
    ret answer
  else if asksSkills question then
    console_log "Pattern: Looking for SKILLS" [] ;;;
    forEach (fun s _ =>
      let exists_ := includes context (toLowerCase s) in
      console_log "Checking:" [Text s; Flag exists_]) skills 0 ;;;
    let found := filter (fun s => includes context (toLowerCase s)) skills in
    let answer :=
      if 0 <? List.length found then join ", " found
      else "Skills not clearly specified" in
    console_log "Final Skills:" [Text answer] ;;;
    ret answer
  else
    console_log "No pattern matched, returning context" [] ;;;
    ret input.

(** [result?.generated_text || promptText]: the empty text is falsy. *)
Definition generatedOr (result : option TextGenerationOutput) (promptText : string) : string :=
  match result with
  | Some {| generated_text := Some text |} =>
      if String.eqb text "" then promptText else text
  | _ => promptText
  end.

(** [llm.invoke]: one request to the service, and the extractor when the
    request throws.  [input] is a string, so [promptText] is [input]
    itself. *)
Definition llm_invoke (input : string) : M string :=
  ds <- getDataStore ;;
  match hf ds with
  | None =>
      console_log "HF_API_KEY not set" [] ;;;
      ret unavailable
  | Some client =>
      tryCatch
        (let promptText := input in
         console_log "CALLING HUGGING FACE API..." [] ;;;
         console_log "Model: gpt2" [] ;;;
         console_log "Input (first 100 chars):" [Text (substring0 100 promptText)] ;;;
         result <- call_textGeneration client (generationRequest promptText) ;;
         console_log "HF API Response received!" [] ;;;
         let answer := generatedOr result promptText in
         console_log "Generated text length: chars" [Number (String.length answer)] ;;;
         ret answer)
        (fun error =>
           msg <- lift (get_message error) ;;
           console_error "HF API error:" [Text msg] ;;;
           console_log "NOTE: Hugging Face Inference API requires:" [] ;;;
           console_log "- HF Pro subscription ($9/month), OR" [] ;;;
           console_log "- Paid model deployment, OR" [] ;;;
           console_log "- Local/offline models" [] ;;;
           console_log "Falling back to pattern matching..." [] ;;;
           extractAnswer input)
  end.

(** [chain.invoke] *)
Definition chain_invoke (question : string) : M string :=
  tryCatch
    (context <- retriever_invoke question ;;
     let fullPrompt := fullPromptOf context question in
     response <- llm_invoke fullPrompt ;;
     ret response)
    (fun error =>
       msg <- lift (get_message error) ;;
       console_error "Chain error:" [Text msg] ;;;
       msg' <- lift (get_message error) ;;
       ret ("Error: " ++ msg')).

End Chain.
End RepoRagDebug.

(** ** Ingestion and the entry point *)

(** [process.env]: the two variables the scripts read. *)
Record Environment := { GITHUB_TOKEN : option string; HF_API_KEY : option string }.

(** The options [ingestRepo] gives to [GithubRepoLoader]. *)
Record LoaderOptions := {
  branch : string;
  recursive : bool;
  unknown : string;
  accessToken : option string
}.

(** The libraries behind [ingestRepo]: [new GithubRepoLoader(url, options)
    .load()] and [new RecursiveCharacterTextSplitter({ chunkSize,
    chunkOverlap }).splitDocuments(rawDocs)], each of which may write lines
    of its own to the console (the loader warns about files it cannot read)
    and then returns an array of documents or throws; and
    [new HfInference(key)]. *)
Record Libraries := {
  GithubRepoLoader_load :
    string -> LoaderOptions -> list Diagnostic * Outcome (list Document);
  RecursiveCharacterTextSplitter_splitDocuments :
    nat -> nat -> list Document -> list Diagnostic * Outcome (list Document);
  new_HfInference : string -> HfInference
}.

(** A call of a library, awaited: the lines it writes, then its
    completion. *)
Definition library {A} (call : list Diagnostic * Outcome A) : M A :=
  fun w =>
    ({| dataStore := dataStore w; arrays := arrays w; requests := requests w;
        console := (console w ++ fst call)%list |},
     snd call).

(** [process.env.HF_API_KEY ? new HfInference(process.env.HF_API_KEY) : null]:
    a variable that is not set and the empty text are falsy. *)
Definition credential (env : Environment) (lib : Libraries) : option HfInference :=
  match HF_API_KEY env with
  | Some key => if String.eqb key "" then None else Some (new_HfInference lib key)
  | None => None
  end.

(** [ingestRepo(owner, repo, branch)]; the lines it writes have the same
    wording in the two scripts. *)
Definition ingestRepo (env : Environment) (lib : Libraries)
    (owner repo branch : string) : M DataStore :=
  console_log "Ingesting /..." [Text owner; Text repo] ;;;
  rawDocs <- library (GithubRepoLoader_load lib
                        ("https://github.com/" ++ owner ++ "/" ++ repo)
                        {| branch := branch; recursive := true; unknown := "warn";
                           accessToken := GITHUB_TOKEN env |}) ;;
  console_log "files loaded" [Number (List.length rawDocs)] ;;;
  docs <- library (RecursiveCharacterTextSplitter_splitDocuments lib 1000 200 rawDocs) ;;
  console_log "Split into chunks" [Number (List.length docs)] ;;;
  console_log "Ingestion complete. Ready for queries." [] ;;;
  ret {| docs := docs; hf := credential env lib |}.

(** [createRAGChain(dataStore)]: the retriever, the adapter and the chain
    it returns read this store from then on. *)
Definition createRAGChain (ds : DataStore) : M unit :=
  fun w =>
    ({| dataStore := ds; arrays := arrays w; requests := requests w;
        console := console w |},
     Returns tt).

(** [console.error(error)]: what the console shows of a thrown value. *)
Definition shown (error : Thrown) : list Datum :=
  match error with
  | Exception e => [Text (name e); Text (message e)]
  | Nullish v => [Text (String_of_Nullish v)]
  end.

(** The question of [main]. *)
Definition mainQuestion : string := "name of the person whose portfolio is this?".

(** ['='.repeat(70)] *)
Definition rule : string := String.concat "" (List.repeat "=" 70).

Module RepoRagScript.
Section Script.
Variable host : RegExpHost.
Variable env : Environment.
Variable lib : Libraries.

(** [main] *)
Definition main : M unit :=
  dataStore <- ingestRepo env lib "NavdeepSingh16-98" "portfolio" "main" ;;
  createRAGChain dataStore ;;;
  let question := mainQuestion in
  answer <- RepoRag.chain_invoke host question ;;
  console_log "" [Text answer].

(** [main().catch(console.error)] *)
Definition script : M unit :=
  tryCatch main (fun error => console_error "" (shown error)).

End Script.
End RepoRagScript.

Module RepoRagDebugScript.
Section Script.
Variable host : RegExpHost.
Variable env : Environment.
Variable lib : Libraries.

(** [main] *)
Definition main : M unit :=
  dataStore <- ingestRepo env lib "NavdeepSingh16-98" "portfolio" "main" ;;
  createRAGChain dataStore ;;;
  let question := mainQuestion in
  console_log "" [Text rule] ;;;
  console_log "QUESTION:" [Text question] ;;;
  console_log "" [Text rule] ;;;
  answer <- RepoRagDebug.chain_invoke host question ;;
  console_log "FINAL ANSWER:" [Text answer].

(** [main().catch(console.error)] *)
Definition script : M unit :=
  tryCatch main (fun error => console_error "" (shown error)).

End Script.
End RepoRagDebugScript.

(** ** Definitions the statements use *)

(** A line of the console. *)
Definition line (ch : Channel) (text : string) (values : list Datum) : Diagnostic :=
  {| channel := ch; wording := text; data := values |}.

(** The lines [forEach] writes with a callback that logs one line per
    element. *)
Fixpoint linesOf {A} (text : string) (values : A -> nat -> list Datum)
    (l : list A) (idx : nat) : list Diagnostic :=
  match l with
  | [] => []
  | x :: l' => line stdout text (values x idx) :: linesOf text values l' (S idx)
  end.

(** The arrays and the result of a retrieval, from the scored chunks. *)
Definition selected (scores : list ScoredChunk) : list ScoredChunk :=
  firstn 6 (sort byScoreDescending scores).

Definition contextOf (scores : list ScoredChunk) : string :=
  join (nl ++ nl) (map (fun s => pageContent (doc s)) (selected scores)).

(** A chunk with the score 0. *)
Definition unscored (d : Document) : ScoredChunk := {| doc := d; score := 0 |}.

(** The patterns without a capturing group. *)
Fixpoint groupFree (r : Regex) : bool :=
  match r with
  | Empty | Term _ | Repeat _ _ => true
  | Seq r1 r2 | Disjunction r1 r2 => groupFree r1 && groupFree r2
  | Optional r1 => groupFree r1
  | Group _ _ => false
  end.

(** [a] may stand before [b] in a ranking: its score is no smaller. *)
Definition ranksBefore (a b : ScoredChunk) : Prop := score b <= score a.

(** A chunk without metadata, and the world a query starts in. *)
Definition chunk (content : string) : Document :=
  {| pageContent := content; metadata := [] |}.

Definition world (ds : list Document) (client : option HfInference) : World :=
  {| dataStore := {| docs := ds; hf := client |};
     arrays := []; requests := []; console := [] |}.

(** A service that answers every request with [text], and one that fails. *)
Definition answering (text : string) : HfInference :=
  {| textGeneration := fun _ => Returns (Some {| generated_text := Some text |}) |}.


(** A service that rejects every request with [null] or [undefined]. *)
Definition rejecting (v : NullOrUndefined) : HfInference :=
  {| textGeneration := fun _ => Throws (Nullish v) |}.

(** What the instrumented adapter makes of a service call that throws
    [error]: the read of the message of [null] or [undefined] throws, and
    any other value leads to the extractor. *)
Definition fallback (error : Thrown) (input : string) : Outcome string :=
  match error with
  | Exception _ => Returns (RepoRag.extractAnswer input)
  | Nullish v => Throws (Exception (cannotRead v))
  end.

(** What the catch clause of the chain does with a thrown value, in a world
    that has written [lines]: the error string for a value with a message;
    on [null] and [undefined] the read of the message throws. *)
Definition caught (error : Thrown) (w : World) (new : list (list ScoredChunk))
    (sent : list TextGenerationArgs) (lines : list Diagnostic) : World * Outcome string :=
  match error with
  | Exception err =>
      (after w new sent (lines ++ [line stderr "Chain error:" [Text (message err)]]),
       Returns ("Error: " ++ message err))
  | Nullish v => (after w new sent lines, Throws (Exception (cannotRead v)))
  end.

(** What the instrumented chain returns when the retrieval has returned and
    a credential is configured: the answer of the adapter, or the error
    string for what the adapter throws. *)
Definition generated (client : HfInference) (fullPrompt : string) : string :=
  match textGeneration client (generationRequest fullPrompt) with
  | Returns result => RepoRagDebug.generatedOr result fullPrompt
  | Throws (Exception _) => RepoRag.extractAnswer fullPrompt
  | Throws (Nullish v) => "Error: " ++ message (cannotRead v)
  end.

(** The opening of the prompt template, up to the block. *)
Definition preamble : string :=
  "Based on the following context, answer the question with a direct and exact answer. Be concise."
  ++ nl ++ nl.

Definition closing : string := nl ++ "Answer (direct answer only):".

(** ** A reference host

    The reference host compiles the patterns read by [parsePattern] and runs
    them with the matcher above; on them it is ECMAScript.  It refuses a
    pattern beyond that reading, which ECMAScript need not do: it is
    evaluated on patterns of the reading only, and every property below is
    proved for every host. *)

Definition reference_RegExp_new (pattern : string) : Outcome RegExp :=
  match parsePattern pattern with
  | Pattern r => Returns {| source := r; ignoreCase := false |}
  | NothingToRepeat =>
      Throws (SyntaxError ("Invalid regular expression: /" ++ pattern
                           ++ "/g: Nothing to repeat"))
  | Beyond =>
      Throws (Exception {| name := "Unsupported";
                           message := "pattern beyond the reference host" |})
  end.

Definition referenceHost : RegExpHost.
Proof.
  refine {| HostRegExp := RegExp;
            RegExp_new := reference_RegExp_new;
            match_global := String_match_global;
            host_throws := _;
            host_rejects := _;
            host_accepts := _ |}.
  - intros p e. unfold reference_RegExp_new, SyntaxError.
    destruct (parsePattern p); intros [= <-]; eauto.
  - intros p H. unfold reference_RegExp_new. rewrite H. eauto.
  - intros p r H. unfold reference_RegExp_new. rewrite H. eauto.
Defined.

(** ** Definitions the further properties use *)

(** The requests [ingestRepo] makes of its libraries, and libraries whose
    loader writes [warnings] and completes with [load], and whose splitter
    completes with [split]. *)
Definition portfolioUrl : string := "https://github.com/NavdeepSingh16-98/portfolio".

Definition portfolioOptions (env : Environment) : LoaderOptions :=
  {| branch := "main"; recursive := true; unknown := "warn";
     accessToken := GITHUB_TOKEN env |}.

Definition libraries (warnings : list Diagnostic) (load : Outcome (list Document))
    (split : Outcome (list Document)) : Libraries :=
  {| GithubRepoLoader_load := fun _ _ => (warnings, load);
     RecursiveCharacterTextSplitter_splitDocuments := fun _ _ _ => ([], split);
     new_HfInference := fun _ => answering "gpt2 says" |}.

(** The world a script starts in: no store yet. *)
Definition start : World := world [] None.

(** A store of eight chunks. *)
Definition sampleStore : list Document :=
  [chunk "about react and React"; chunk "nothing"; chunk "skills skills react";
   chunk "x"; chunk "react"; chunk "y"; chunk "z"; chunk "skills"].

Definition sampleContext : string :=
  join (nl ++ nl)
    ["skills skills react"; "about react and React"; "react"; "skills"; "nothing"; "x"].

Definition isSyntaxCharacter (c : ascii) : bool :=
  isQuantifierPrefix c || isOtherSyntaxCharacter c || Ascii.eqb c ".".

(** A keyword none of whose code units is a syntax character. *)
Definition plain (kw : string) : bool :=
  allChars (fun c => negb (isSyntaxCharacter c)) kw.

(** The matches of a keyword, as a pattern, in a text. *)
Definition occurrences (kw s : string) : nat :=
  List.length (matchesFrom {| source := literal kw; ignoreCase := false |} s 0).

(** A keyword that reads as a pattern, and the matches of that pattern in
    a text. *)
Definition reads (kw : string) : bool :=
  match parsePattern kw with
  | Pattern _ => true
  | _ => false
  end.

Definition matchCount (kw s : string) : nat :=
  match parsePattern kw with
  | Pattern r => List.length (matchesFrom {| source := r; ignoreCase := false |} s 0)
  | _ => 0
  end.

Definition isLowerCased (c : ascii) : bool := Ascii.eqb (toLowerChar c) c.

Definition experienceNotFound : string := "Experience duration not found in context".

Definition questionPlaceholder : string := "{question}".

(** The lines of an ingestion, as far as it gets. *)
Definition ingesting : Diagnostic :=
  line stdout "Ingesting /..." [Text "NavdeepSingh16-98"; Text "portfolio"].

Definition loaded (raw : list Document) : Diagnostic :=
  line stdout "files loaded" [Number (List.length raw)].

(** The console of an ingestion that succeeds: the lines of the script and,
    between them, what the loader and the splitter write themselves. *)
Definition ingested (warnings written : list Diagnostic) (raw chunks : list Document)
    : list Diagnostic :=
  ([ingesting] ++ warnings ++ [loaded raw] ++ written
   ++ [line stdout "Split into chunks" [Number (List.length chunks)];
       line stdout "Ingestion complete. Ready for queries." []])%list.


(** * Properties *)

(** ** Strings *)

Lemma append_empty_r (s : string) : s ++ "" = s.
Proof. induction s; simpl; congruence. Qed.

Lemma append_assoc (a b c : string) : (a ++ b) ++ c = a ++ (b ++ c).
Proof. induction a; simpl; congruence. Qed.

Lemma length_append (a b : string) :
  String.length (a ++ b) = String.length a + String.length b.
Proof. induction a; simpl; congruence. Qed.

Lemma take_append (a b : string) : take (String.length a) (a ++ b) = a.
Proof. induction a; simpl; [destruct b; reflexivity | congruence]. Qed.

Lemma drop_append (a b : string) : drop (String.length a) (a ++ b) = b.
Proof. induction a; simpl; [destruct b; reflexivity | assumption]. Qed.

Lemma take_consumed (a b : string) :
  take (String.length (a ++ b) - String.length b) (a ++ b) = a.
Proof.
  rewrite length_append, Nat.add_sub. apply take_append.
Qed.

Lemma startsWith_append (m s : string) : startsWith (m ++ s) m = true.
Proof.
  unfold startsWith. induction m as [|c m IH]; simpl.
  - destruct s; reflexivity.
  - destruct (ascii_dec c c); [assumption | congruence].
Qed.

Lemma startsWith_inv (m s : string) :
  startsWith s m = true -> s = m ++ drop (String.length m) s.
Proof.
  unfold startsWith. revert s. induction m as [|c m IH]; intros s H; simpl in *.
  - destruct s; reflexivity.
  - destruct s as [|d s]; simpl in H; [discriminate|].
    destruct (ascii_dec c d); [subst|discriminate].
    f_equal. auto.
Qed.

Lemma drop_drop (i j : nat) (s : string) : drop i (drop j s) = drop (j + i) s.
Proof.
  revert s. induction j as [|j IH]; intros s; simpl.
  - reflexivity.
  - destruct s; [destruct i; reflexivity | apply IH].
Qed.

(** [indexOf] names the first occurrence. *)
Lemma indexOf_Some (s m : string) (n : nat) :
  indexOf s m = Some n ->
  startsWith (drop n s) m = true /\
  forall j, j < n -> startsWith (drop j s) m = false.
Proof.
  revert n. induction s as [|c s IH]; intros n; cbn [indexOf].
  - destruct (startsWith "" m) eqn:E; [|discriminate].
    intros [= <-]. split; [assumption | intros j Hj; lia].
  - destruct (startsWith (String c s) m) eqn:E.
    + intros [= <-]. split; [assumption | intros j Hj; lia].
    + destruct (indexOf s m) as [k|] eqn:Ek; [|discriminate].
      cbn [option_map]. intros [= <-]. destruct (IH k eq_refl) as [H1 H2].
      split; [assumption|].
      intros [|j] Hj; cbn [drop]; [assumption | apply H2; lia].
Qed.

Lemma indexOf_None (s m : string) :
  indexOf s m = None -> forall j, startsWith (drop j s) m = false.
Proof.
  induction s as [|c s IH]; cbn [indexOf].
  - destruct (startsWith "" m) eqn:E; [discriminate|].
    intros _ [|j]; assumption.
  - destruct (startsWith (String c s) m) eqn:E; [discriminate|].
    destruct (indexOf s m) eqn:Ek; [discriminate|].
    intros _ [|j]; cbn [drop]; [assumption | apply IH; reflexivity].
Qed.

Lemma includes_false (s m : string) :
  includes s m = false -> forall j, startsWith (drop j s) m = false.
Proof.
  induction s as [|c s IH]; cbn [includes]; intros H.
  - apply orb_false_iff in H. destruct H as [H _]. intros [|j]; assumption.
  - apply orb_false_iff in H. destruct H as [H1 H2].
    intros [|j]; cbn [drop]; [assumption | apply IH; assumption].
Qed.

(** ** The matcher *)

Lemma matcher_literal_app (m s : string) (k : Continuation) (caps : Captures) :
  matcher false (literal m) k (m ++ s, caps) = k (s, caps).
Proof.
  induction m as [|c m IH]; cbn [literal matcher append fst snd atomMatches].
  - reflexivity.
  - rewrite Ascii.eqb_refl. apply IH.
Qed.

Lemma matcher_literal_fail (m s : string) (k : Continuation) (caps : Captures) :
  startsWith s m = false -> matcher false (literal m) k (s, caps) = None.
Proof.
  unfold startsWith. revert s.
  induction m as [|c m IH]; intros s H; cbn [literal matcher fst snd atomMatches].
  - destruct s; discriminate.
  - destruct s as [|d s]; [reflexivity|]. cbn [prefix] in H.
    destruct (ascii_dec c d) as [->|Hne].
    + rewrite Ascii.eqb_refl. apply IH. assumption.
    + apply Ascii.eqb_neq in Hne. rewrite Hne. reflexivity.
Qed.

(** Where the continuation fails at every position, the repetition fails. *)
Lemma RepeatMatcher_none ic a greedy (c : Continuation) caps (s : string) :
  (forall j, c (drop j s, caps) = None) ->
  forall min max, RepeatMatcher ic a greedy c min max caps s = None.
Proof.
  induction s as [|ch s IH]; intros H min max.
  - pose proof (H 0) as H0. cbn [drop] in H0.
    destruct max as [[|n]|]; cbn [RepeatMatcher]; rewrite ?H0;
      destruct (min =? 0); reflexivity.
  - pose proof (H 0) as H0. cbn [drop] in H0.
    assert (IH' : forall min max, RepeatMatcher ic a greedy c min max caps s = None).
    { apply IH. intros j. apply (H (S j)). }
    destruct max as [[|n]|]; cbn [RepeatMatcher]; rewrite ?H0, ?IH';
      destruct (negb (min =? 0)), greedy, (atomMatches ic a ch); reflexivity.
Qed.

(** A lazy repetition stops at the first position the continuation
    accepts. *)
Lemma RepeatMatcher_lazy_star ic a (c : Continuation) caps (q rest : string) y :
  allChars (atomMatches ic a) q = true ->
  (forall j, j < String.length q -> c (drop j (q ++ rest), caps) = None) ->
  c (rest, caps) = Some y ->
  RepeatMatcher ic a false c 0 None caps (q ++ rest) = Some y.
Proof.
  induction q as [|ch q IH]; intros Hall Hfail Hc.
  - cbn [append]. destruct rest; cbn [RepeatMatcher Nat.eqb negb]; rewrite Hc; reflexivity.
  - cbn [allChars] in Hall. apply andb_true_iff in Hall. destruct Hall as [Hch Hall].
    cbn [append RepeatMatcher Nat.eqb negb pred option_map].
    pose proof (Hfail 0 ltac:(cbn; lia)) as H0. cbn [drop append] in H0.
    rewrite H0, Hch. apply IH; [assumption| |assumption].
    intros j Hj. apply (Hfail (S j)). cbn. lia.
Qed.

Lemma RepeatMatcher_lazy_plus ic a (c : Continuation) caps ch (q rest : string) y :
  atomMatches ic a ch = true ->
  allChars (atomMatches ic a) q = true ->
  (forall j, j < String.length q -> c (drop j (q ++ rest), caps) = None) ->
  c (rest, caps) = Some y ->
  RepeatMatcher ic a false c 1 None caps (String ch (q ++ rest)) = Some y.
Proof.
  intros Hch Hall Hfail Hc.
  cbn [RepeatMatcher Nat.eqb negb pred option_map]. rewrite Hch.
  apply RepeatMatcher_lazy_star; assumption.
Qed.

(** ** The search for a match *)

Lemma execFrom_hit re (s rest : string) caps i :
  matchAt re s = Some (rest, caps) ->
  execFrom re s i =
  Some {| index := i; matched := take (String.length s - String.length rest) s;
          groups := caps |}.
Proof.
  intros H. destruct s; cbn [execFrom]; rewrite H; reflexivity.
Qed.

Lemma execFrom_skip re (n : nat) :
  forall (s : string) i,
  (forall j, j < n -> matchAt re (drop j s) = None) ->
  n <= String.length s ->
  execFrom re s i = execFrom re (drop n s) (i + n).
Proof.
  induction n as [|n IH]; intros s i Hfail Hlen.
  - cbn [drop]. rewrite Nat.add_0_r. destruct s; reflexivity.
  - destruct s as [|ch s]; [cbn in Hlen; lia|].
    pose proof (Hfail 0 ltac:(lia)) as H0. cbn [drop] in H0.
    cbn [execFrom drop]. rewrite H0.
    rewrite IH.
    + f_equal. lia.
    + intros j Hj. apply (Hfail (S j)). lia.
    + cbn in Hlen. lia.
Qed.

Lemma execFrom_none re (s : string) :
  (forall j, matchAt re (drop j s) = None) ->
  forall i, execFrom re s i = None.
Proof.
  induction s as [|ch s IH]; intros Hfail i.
  - pose proof (Hfail 0) as H0. cbn [drop] in H0. cbn [execFrom]. rewrite H0. reflexivity.
  - pose proof (Hfail 0) as H0. cbn [drop] in H0. cbn [execFrom]. rewrite H0.
    apply IH. intros j. apply (Hfail (S j)).
Qed.

Lemma drop_inside (p : ascii -> bool) (q rest : string) (j : nat) :
  allChars p q = true -> j < String.length q ->
  exists ch s, drop j (q ++ rest) = String ch s /\ p ch = true.
Proof.
  revert j. induction q as [|c q IH]; intros j Hall Hj; [cbn in Hj; lia|].
  cbn [allChars] in Hall. apply andb_true_iff in Hall. destruct Hall as [Hc Hall].
  destruct j as [|j]; cbn [append drop].
  - eauto.
  - apply IH; [assumption | cbn in Hj; lia].
Qed.

Lemma startsWith_nl (ch : ascii) (s : string) :
  isLineTerminator ch = false -> startsWith (String ch s) nl = false.
Proof.
  intros H. unfold startsWith, nl. cbn [prefix].
  destruct (ascii_dec LF ch) as [<-|]; [discriminate H | reflexivity].
Qed.

(** ** Reading the question and the context back from a prompt *)

Lemma questionPattern_fail (s : string) :
  startsWith s questionMarker = false -> matchAt questionPattern s = None.
Proof.
  intros H. unfold matchAt, questionPattern.
  cbn [source ignoreCase seq fold_right matcher].
  apply matcher_literal_fail. assumption.
Qed.

Lemma questionPattern_hit (q post : string) :
  q <> "" ->
  allChars (fun c => negb (isLineTerminator c)) q = true ->
  matchAt questionPattern (questionMarker ++ q ++ nl ++ post) = Some (post, [(1, q)]).
Proof.
  intros Hq Hall. unfold matchAt, questionPattern.
  cbn [source ignoreCase seq fold_right matcher].
  rewrite matcher_literal_app.
  cbn [matcher fst snd plus q_min q_max q_greedy].
  destruct q as [|ch q]; [congruence|].
  cbn [allChars] in Hall. apply andb_true_iff in Hall. destruct Hall as [Hch Hall].
  cbn [append].
  apply RepeatMatcher_lazy_plus.
  - exact Hch.
  - exact Hall.
  - intros j Hj.
    destruct (drop_inside _ q (nl ++ post) j Hall Hj) as (c & s & -> & Hc).
    cbn [fst snd]. apply matcher_literal_fail. apply startsWith_nl.
    apply negb_true_iff. assumption.
  - cbn [fst snd]. rewrite matcher_literal_app. cbn [matcher].
    change (String ch (q ++ nl ++ post)) with (String ch q ++ (nl ++ post)).
    rewrite take_consumed. reflexivity.
Qed.

Lemma questionMatch_found (before q post : string) :
  indexOf (before ++ questionMarker ++ q ++ nl ++ post) questionMarker
    = Some (String.length before) ->
  q <> "" ->
  allChars (fun c => negb (isLineTerminator c)) q = true ->
  String_match (before ++ questionMarker ++ q ++ nl ++ post) questionPattern =
  Some {| index := String.length before;
          matched := questionMarker ++ q ++ nl;
          groups := [(1, q)] |}.
Proof.
  intros Hidx Hq Hall. unfold String_match.
  apply indexOf_Some in Hidx. destruct Hidx as [_ Hfirst].
  rewrite (execFrom_skip _ (String.length before)).
  - rewrite drop_append.
    rewrite (execFrom_hit _ _ post [(1, q)]) by (apply questionPattern_hit; assumption).
    cbn [Nat.add].
    replace (questionMarker ++ q ++ nl ++ post) with ((questionMarker ++ q ++ nl) ++ post)
      by (rewrite !append_assoc; reflexivity).
    rewrite take_consumed. reflexivity.
  - intros j Hj. apply questionPattern_fail. apply Hfirst. assumption.
  - rewrite length_append. lia.
Qed.

Lemma questionMatch_absent (input : string) :
  indexOf input questionMarker = None ->
  String_match input questionPattern = None.
Proof.
  intros H. unfold String_match. apply execFrom_none.
  intros j. apply questionPattern_fail. apply indexOf_None. assumption.
Qed.

Lemma anyChar_matches ic (s : string) :
  allChars (atomMatches ic (CharacterClass [Escape_s; Escape_S])) s = true.
Proof.
  induction s as [|c s IH]; cbn [allChars]; [reflexivity|].
  rewrite IH, andb_true_r. cbn. destruct (isWhiteSpace c); reflexivity.
Qed.

Lemma contextPattern_fail (s : string) :
  startsWith s contextMarker = false -> matchAt contextPattern s = None.
Proof.
  intros H. unfold matchAt, contextPattern.
  cbn [source ignoreCase seq fold_right matcher].
  apply matcher_literal_fail. assumption.
Qed.

Lemma contextPattern_hit (context rest : string) :
  context <> "" ->
  (forall j, j < String.length context ->
     startsWith (drop j (context ++ closingMarker ++ rest)) closingMarker = false) ->
  matchAt contextPattern (contextMarker ++ context ++ closingMarker ++ rest)
  = Some (rest, [(1, context)]).
Proof.
  intros Hc Hfirst. unfold matchAt, contextPattern.
  cbn [source ignoreCase seq fold_right matcher].
  rewrite matcher_literal_app.
  cbn [matcher fst snd plus q_min q_max q_greedy].
  destruct context as [|ch q]; [congruence|].
  cbn [append].
  apply RepeatMatcher_lazy_plus.
  - cbn. destruct (isWhiteSpace ch); reflexivity.
  - apply anyChar_matches.
  - intros j Hj. cbn [fst snd]. apply matcher_literal_fail.
    apply (Hfirst (S j)). cbn. lia.
  - cbn [fst snd]. rewrite matcher_literal_app. cbn [matcher].
    change (String ch (q ++ closingMarker ++ rest))
      with (String ch q ++ (closingMarker ++ rest)).
    rewrite take_consumed. reflexivity.
Qed.

(** Where the closing marker occurs nowhere, the context pattern matches
    nowhere. *)
Lemma contextPattern_unclosed (s : string) :
  (forall j, startsWith (drop j s) closingMarker = false) ->
  matchAt contextPattern s = None.
Proof.
  intros Hnone. unfold matchAt, contextPattern.
  cbn [source ignoreCase seq fold_right matcher].
  destruct (startsWith s contextMarker) eqn:E.
  - apply startsWith_inv in E. rewrite E at 1. rewrite matcher_literal_app.
    cbn [matcher fst snd]. apply RepeatMatcher_none.
    intros j. cbn [fst snd]. apply matcher_literal_fail.
    rewrite drop_drop. apply Hnone.
  - apply matcher_literal_fail. assumption.
Qed.

Lemma contextMatch_found (before context rest : string) :
  indexOf (before ++ contextMarker ++ context ++ closingMarker ++ rest) contextMarker
    = Some (String.length before) ->
  context <> "" ->
  indexOf (context ++ closingMarker ++ rest) closingMarker
    = Some (String.length context) ->
  String_match (before ++ contextMarker ++ context ++ closingMarker ++ rest) contextPattern =
  Some {| index := String.length before;
          matched := contextMarker ++ context ++ closingMarker;
          groups := [(1, context)] |}.
Proof.
  intros Hidx Hc Hclose. unfold String_match.
  apply indexOf_Some in Hidx. destruct Hidx as [_ Hfirst].
  apply indexOf_Some in Hclose. destruct Hclose as [_ Hclose].
  rewrite (execFrom_skip _ (String.length before)).
  - rewrite drop_append.
    rewrite (execFrom_hit _ _ rest [(1, context)])
      by (apply contextPattern_hit; assumption).
    cbn [Nat.add].
    replace (contextMarker ++ context ++ closingMarker ++ rest)
      with ((contextMarker ++ context ++ closingMarker) ++ rest)
      by (rewrite !append_assoc; reflexivity).
    rewrite take_consumed. reflexivity.
  - intros j Hj. apply contextPattern_fail. apply Hfirst. assumption.
  - rewrite length_append. lia.
Qed.

Lemma contextMatch_absent (input : string) :
  indexOf input contextMarker = None \/ includes input closingMarker = false ->
  String_match input contextPattern = None.
Proof.
  intros [H|H]; unfold String_match; apply execFrom_none; intros j.
  - apply contextPattern_fail. apply indexOf_None. assumption.
  - apply contextPattern_unclosed. intros i. rewrite drop_drop.
    apply includes_false. assumption.
Qed.

Lemma drop_beyond (a b : string) (j : nat) :
  String.length a <= j -> drop j (a ++ b) = drop (j - String.length a) b.
Proof.
  revert j. induction a as [|c a IH]; intros j Hj; cbn [append String.length] in *.
  - rewrite Nat.sub_0_r. reflexivity.
  - destruct j as [|j]; [lia|]. cbn [drop Nat.sub]. apply IH. lia.
Qed.

(** A question that starts with a line terminator is not matched. *)
Lemma questionPattern_blank (ch : ascii) (rest : string) :
  isLineTerminator ch = true ->
  matchAt questionPattern (questionMarker ++ String ch rest) = None.
Proof.
  intros H. unfold matchAt, questionPattern.
  cbn [source ignoreCase seq fold_right matcher].
  rewrite matcher_literal_app.
  cbn [matcher fst snd plus q_min q_max q_greedy RepeatMatcher Nat.eqb negb atomMatches].
  rewrite H. reflexivity.
Qed.

(** Where the closing marker occurs nowhere past the first code unit after
    the opening marker, the context pattern does not match. *)
Lemma contextPattern_late (s : string) :
  (forall i, startsWith (drop (S (String.length contextMarker) + i) s) closingMarker = false) ->
  matchAt contextPattern s = None.
Proof.
  intros Hnone. unfold matchAt, contextPattern.
  cbn [source ignoreCase seq fold_right matcher].
  destruct (startsWith s contextMarker) eqn:E; [|apply matcher_literal_fail; assumption].
  apply startsWith_inv in E. rewrite E at 1. rewrite matcher_literal_app.
  cbn [matcher fst snd plus q_min q_max q_greedy].
  destruct (drop (String.length contextMarker) s) as [|ch r] eqn:D;
    cbn [RepeatMatcher Nat.eqb negb pred option_map]; [reflexivity|].
  destruct (atomMatches false (CharacterClass [Escape_s; Escape_S]) ch); [|reflexivity].
  apply RepeatMatcher_none. intros j. cbn [fst snd]. apply matcher_literal_fail.
  replace (drop j r) with (drop (S (String.length contextMarker) + j) s); [apply Hnone|].
  rewrite <- (drop_drop j (S (String.length contextMarker)) s).
  f_equal. change (S (String.length contextMarker)) with (String.length contextMarker + 1).
  rewrite <- drop_drop, D. reflexivity.
Qed.

Lemma questionMatch_blank (before rest : string) (ch : ascii) :
  indexOf (before ++ questionMarker ++ String ch rest) questionMarker
    = Some (String.length before) ->
  isLineTerminator ch = true ->
  includes (drop 1 (questionMarker ++ String ch rest)) questionMarker = false ->
  String_match (before ++ questionMarker ++ String ch rest) questionPattern = None.
Proof.
  intros Hidx Hch Hlater. unfold String_match. apply execFrom_none. intros j.
  apply indexOf_Some in Hidx. destruct Hidx as [_ Hfirst].
  destruct (Nat.lt_trichotomy j (String.length before)) as [Hj|[->|Hj]].
  - apply questionPattern_fail. apply Hfirst. assumption.
  - rewrite drop_append. apply questionPattern_blank. assumption.
  - apply questionPattern_fail. rewrite drop_beyond by lia.
    replace (j - String.length before) with (1 + (j - String.length before - 1)) by lia.
    rewrite <- drop_drop. apply includes_false. assumption.
Qed.

Lemma contextMatch_blank (before tail : string) :
  indexOf (before ++ contextMarker ++ tail) contextMarker = Some (String.length before) ->
  includes (drop 1 tail) closingMarker = false ->
  String_match (before ++ contextMarker ++ tail) contextPattern = None.
Proof.
  intros Hidx Hlater. unfold String_match. apply execFrom_none. intros j.
  apply indexOf_Some in Hidx. destruct Hidx as [_ Hfirst].
  destruct (Nat.lt_ge_cases j (String.length before)) as [Hj|Hj].
  - apply contextPattern_fail. apply Hfirst. assumption.
  - apply contextPattern_late. intros i. rewrite drop_drop.
    rewrite drop_beyond by lia. rewrite drop_beyond by lia.
    replace (j + (S (String.length contextMarker) + i) - String.length before
             - String.length contextMarker)
      with (1 + (j - String.length before + i)) by lia.
    rewrite <- drop_drop. apply includes_false. assumption.
Qed.

(** ** Runs of the monadic code *)

Lemma after_nothing (w : World) : after w [] [] [] = w.
Proof. destruct w. unfold after. cbn. rewrite !app_nil_r. reflexivity. Qed.

Lemma after_after (w : World) a1 r1 l1 a2 r2 l2 :
  after (after w a1 r1 l1) a2 r2 l2 = after w (a1 ++ a2)%list (r1 ++ r2)%list (l1 ++ l2)%list.
Proof. unfold after. cbn. rewrite !app_assoc. reflexivity. Qed.

Lemma console_write_run ch text values (w : World) :
  console_write ch text values w = (after w [] [] [line ch text values], Returns tt).
Proof. destruct w. unfold console_write, after. cbn. rewrite !app_nil_r. reflexivity. Qed.

Lemma nth_fresh {A} (l : list A) (x d : A) : nth (List.length l) (l ++ [x]) d = x.
Proof. induction l; cbn; auto. Qed.

Lemma update_fresh {A} (l : list A) (x y : A) :
  update (List.length l) y (l ++ [x]) = (l ++ [y])%list.
Proof. induction l; cbn; congruence. Qed.

Lemma forEach_console_log {A} text (values : A -> nat -> list Datum) (l : list A) :
  forall idx w,
  forEach (fun x i => console_log text (values x i)) l idx w
  = (after w [] [] (linesOf text values l idx), Returns tt).
Proof.
  induction l as [|x l IH]; intros idx w; cbn [forEach linesOf].
  - unfold ret. rewrite after_nothing. reflexivity.
  - unfold bind, console_log. rewrite console_write_run, IH, after_after. reflexivity.
Qed.

Lemma retriever_invoke_run host question (w : World) :
  RepoRag.retriever_invoke host question w =
  match Array_map (scoreDocument host (keywordsOf question)) (docs (dataStore w)) with
  | Returns scores =>
      (after w [sort byScoreDescending scores; selected scores] [] [],
       Returns (contextOf scores))
  | Throws e => (w, Throws e)
  end.
Proof.
  destruct w as [ds a r c].
  unfold RepoRag.retriever_invoke, docs_map, Array_sort, Array_slice, Array_contents,
    bind, getDataStore, lift, allocate, read, write, ret, after, contextOf, selected.
  cbn [dataStore arrays requests console].
  destruct (Array_map _ _) as [scores|e]; [|reflexivity].
  cbn [dataStore arrays requests console].
  rewrite nth_fresh, update_fresh, !nth_fresh.
  rewrite <- !app_assoc, !app_nil_r. cbn [app Nat.sub skipn].
  reflexivity.
Qed.

(** The primitives, run in a world [after w new sent lines]. *)

Lemma run_console_write ch text values w new sent lines :
  console_write ch text values (after w new sent lines)
  = (after w new sent (lines ++ [line ch text values]), Returns tt).
Proof. unfold console_write, after. cbn. rewrite app_assoc. reflexivity. Qed.

Lemma run_allocate a w new sent lines :
  allocate a (after w new sent lines)
  = (after w (new ++ [a]) sent lines,
     Returns (List.length (arrays w) + List.length new)).
Proof. unfold allocate, after. cbn. rewrite app_assoc, length_app. reflexivity. Qed.

Lemma run_read i w new sent lines :
  read (List.length (arrays w) + i) (after w new sent lines)
  = (after w new sent lines, Returns (nth i new [])).
Proof.
  unfold read, after. cbn. rewrite app_nth2 by lia.
  replace (List.length (arrays w) + i - List.length (arrays w)) with i by lia.
  reflexivity.
Qed.

Lemma update_app {A} (l new : list A) (i : nat) (x : A) :
  i < List.length new ->
  update (List.length l + i) x (l ++ new) = (l ++ update i x new)%list.
Proof.
  intros Hi. induction l as [|y l IH]; cbn; [reflexivity | congruence].
Qed.

Lemma run_write i x w new sent lines :
  i < List.length new ->
  write (List.length (arrays w) + i) x (after w new sent lines)
  = (after w (update i x new) sent lines, Returns tt).
Proof. intros Hi. unfold write, after. cbn. rewrite update_app by assumption. reflexivity. Qed.

Lemma run_call client args w new sent lines :
  call_textGeneration client args (after w new sent lines)
  = (after w new (sent ++ [args]) lines, textGeneration client args).
Proof. unfold call_textGeneration, after. cbn. rewrite app_assoc. reflexivity. Qed.

Lemma run_forEach {A} text (values : A -> nat -> list Datum) (l : list A) :
  forall idx w new sent lines,
  forEach (fun x i => console_write stdout text (values x i)) l idx
    (after w new sent lines)
  = (after w new sent (lines ++ linesOf text values l idx), Returns tt).
Proof.
  induction l as [|x l IH]; intros idx w new sent lines; cbn [forEach linesOf].
  - unfold ret. rewrite app_nil_r. reflexivity.
  - unfold bind. rewrite run_console_write, IH, <- app_assoc. reflexivity.
Qed.

Ltac run_step :=
  first
    [ rewrite run_console_write
    | rewrite run_allocate
    | rewrite run_read
    | rewrite run_write by (cbn; lia)
    | rewrite run_call
    | rewrite run_forEach ];
  cbv beta iota.

Ltac run_start w :=
  rewrite <- (after_nothing w) at 1;
  cbv beta iota zeta delta
    [bind ret lift getDataStore tryCatch console_log console_error
     docs_map Array_sort Array_slice Array_contents Array_forEach].

Lemma debug_retriever_invoke_run host question (w : World) :
  match Array_map (scoreDocument host (keywordsOf question)) (docs (dataStore w)) with
  | Returns scores =>
      exists lines,
      RepoRagDebug.retriever_invoke host question w =
      (after w [sort byScoreDescending scores; selected scores; selected scores] [] lines,
       Returns (contextOf scores))
  | Throws e =>
      exists lines,
      RepoRagDebug.retriever_invoke host question w = (after w [] [] lines, Throws e)
  end.
Proof.
  destruct (Array_map _ _) as [scores|e] eqn:E; eexists;
    unfold RepoRagDebug.retriever_invoke; run_start w;
    do 3 run_step; cbn [dataStore after]; rewrite E; cbv beta iota.
  - repeat (run_step; cbn [List.length app nth update Nat.sub skipn Nat.add]).
    reflexivity.
  - reflexivity.
Qed.

(** The instrumented extractor computes the answer of the main one and
    writes to the console only. *)
Lemma debug_extractAnswer_run (input : string) (w : World) :
  exists lines,
  RepoRagDebug.extractAnswer input w
  = (after w [] [] lines, Returns (RepoRag.extractAnswer input)).
Proof.
  unfold RepoRagDebug.extractAnswer, RepoRag.extractAnswer.
  destruct (asksName (parsedQuestion input));
    [|destruct (asksExperience (parsedQuestion input));
      [|destruct (asksSkills (parsedQuestion input))]];
    eexists; run_start w; repeat run_step; reflexivity.
Qed.

Lemma llm_invoke_run (input : string) (w : World) :
  RepoRag.llm_invoke input w =
  (w, Returns (match hf (dataStore w) with
               | None => unavailable
               | Some _ => RepoRag.extractAnswer input
               end)).
Proof.
  unfold RepoRag.llm_invoke, bind, getDataStore, tryCatch, ret.
  destruct (hf (dataStore w)); reflexivity.
Qed.

Lemma debug_llm_invoke_run (input : string) (w : World) :
  match hf (dataStore w) with
  | None =>
      exists lines,
      RepoRagDebug.llm_invoke input w = (after w [] [] lines, Returns unavailable)
  | Some client =>
      exists lines,
      RepoRagDebug.llm_invoke input w =
      (after w [] [generationRequest input] lines,
       match textGeneration client (generationRequest input) with
       | Returns result => Returns (RepoRagDebug.generatedOr result input)
       | Throws error => fallback error input
       end)
  end.
Proof.
  destruct (hf (dataStore w)) as [client|] eqn:E.
  - destruct (textGeneration client (generationRequest input)) as [result|[e|v]] eqn:T.
    + eexists. unfold RepoRagDebug.llm_invoke. run_start w.
      cbn [dataStore after]. rewrite E. repeat run_step. rewrite T.
      repeat run_step. reflexivity.
    + destruct (debug_extractAnswer_run input
                  (after w [] [generationRequest input]
                     [line stdout "CALLING HUGGING FACE API..." [];
                      line stdout "Model: gpt2" [];
                      line stdout "Input (first 100 chars):" [Text (substring0 100 input)];
                      line stderr "HF API error:" [Text (message e)];
                      line stdout "NOTE: Hugging Face Inference API requires:" [];
                      line stdout "- HF Pro subscription ($9/month), OR" [];
                      line stdout "- Paid model deployment, OR" [];
                      line stdout "- Local/offline models" [];
                      line stdout "Falling back to pattern matching..." []]))
        as [lines Hx].
      eexists. unfold RepoRagDebug.llm_invoke. run_start w.
      cbn [dataStore after]. rewrite E. repeat run_step. rewrite T.
      cbn [get_message]. repeat run_step. cbn [app]. rewrite Hx, after_after. reflexivity.
    + eexists. unfold RepoRagDebug.llm_invoke. run_start w.
      cbn [dataStore after]. rewrite E. repeat run_step. rewrite T.
      cbn [get_message]. reflexivity.
  - eexists. unfold RepoRagDebug.llm_invoke. run_start w.
    cbn [dataStore after]. rewrite E. repeat run_step. reflexivity.
Qed.

Lemma chain_catch_run (error : Thrown) w new sent lines :
  (msg <- lift (get_message error) ;;
   console_error "Chain error:" [Text msg] ;;;
   msg' <- lift (get_message error) ;;
   ret ("Error: " ++ msg')) (after w new sent lines)
  = caught error w new sent lines.
Proof.
  destruct error as [err|v]; unfold bind, lift, console_error, ret, caught;
    cbn [get_message obind]; [|reflexivity].
  rewrite run_console_write. reflexivity.
Qed.



Lemma chain_invoke_run host question (w : World) :
  RepoRag.chain_invoke host question w =
  match Array_map (scoreDocument host (keywordsOf question)) (docs (dataStore w)) with
  | Returns scores =>
      (after w [sort byScoreDescending scores; selected scores] [] [],
       Returns (match hf (dataStore w) with
                | None => unavailable
                | Some _ => RepoRag.extractAnswer (fullPromptOf (contextOf scores) question)
                end))
  | Throws e => caught e w [] [] []
  end.
Proof.
  unfold RepoRag.chain_invoke, tryCatch, bind at 1 2.
  rewrite retriever_invoke_run.
  destruct (Array_map _ _) as [scores|e].
  - rewrite llm_invoke_run. reflexivity.
  - rewrite <- (after_nothing w) at 1. apply chain_catch_run.
Qed.

Lemma debug_chain_invoke_run host question (w : World) :
  match Array_map (scoreDocument host (keywordsOf question)) (docs (dataStore w)) with
  | Returns scores =>
      exists lines,
      RepoRagDebug.chain_invoke host question w =
      (after w [sort byScoreDescending scores; selected scores; selected scores]
         (match hf (dataStore w) with
          | Some _ => [generationRequest (fullPromptOf (contextOf scores) question)]
          | None => []
          end) lines,
       Returns (match hf (dataStore w) with
                | None => unavailable
                | Some client => generated client (fullPromptOf (contextOf scores) question)
                end))
  | Throws e =>
      exists lines,
      RepoRagDebug.chain_invoke host question w = caught e w [] [] lines
  end.
Proof.
  pose proof (debug_retriever_invoke_run host question w) as Hr.
  destruct (Array_map _ _) as [scores|e].
  - destruct Hr as [lines Hr].
    pose proof (debug_llm_invoke_run (fullPromptOf (contextOf scores) question)
                  (after w [sort byScoreDescending scores; selected scores; selected scores]
                     [] lines)) as Hl.
    cbn [dataStore after] in Hl.
    destruct (hf (dataStore w)) as [client|]; destruct Hl as [lines' Hl].
    + unfold generated.
      destruct (textGeneration client _) as [result|[e|v]];
        eexists; unfold RepoRagDebug.chain_invoke, tryCatch, bind at 1 2;
        rewrite Hr, Hl, after_after; unfold fallback.
      * unfold ret. rewrite ?app_nil_r. reflexivity.
      * unfold ret. rewrite ?app_nil_r. reflexivity.
      * rewrite chain_catch_run. reflexivity.
    + eexists; unfold RepoRagDebug.chain_invoke, tryCatch, bind at 1 2;
        rewrite Hr, Hl, after_after; unfold ret; rewrite ?app_nil_r; reflexivity.
  - destruct Hr as [lines Hr]. eexists.
    unfold RepoRagDebug.chain_invoke, tryCatch, bind at 1 2. rewrite Hr.
    apply chain_catch_run.
Qed.

Lemma fst_caught (e : Thrown) w new sent lines :
  exists lines', fst (caught e w new sent lines) = after w new sent lines'.
Proof. destruct e; eexists; reflexivity. Qed.

(** ** Scoring and sorting *)

Lemma Array_map_total {A B} (f : A -> B) (l : list A) :
  Array_map (fun x => Returns (f x)) l = Returns (map f l).
Proof. induction l as [|x l IH]; cbn; [|rewrite IH]; reflexivity. Qed.

Lemma keywordsOf_none (question : string) :
  Forall (fun token => String.length token <= 2)
         (split_whitespace (toLowerCase question)) ->
  keywordsOf question = [].
Proof.
  unfold keywordsOf. generalize (split_whitespace (toLowerCase question)).
  intros l H. induction H as [|t l Ht _ IH]; cbn [filter]; [reflexivity|].
  destruct (2 <? String.length t) eqn:E; [|assumption].
  apply Nat.ltb_lt in E. lia.
Qed.

Lemma sort_ties (l : list ScoredChunk) :
  Forall (fun s => score s = 0) l -> sort byScoreDescending l = l.
Proof.
  induction 1 as [|x l Hx Hl IH]; cbn [sort]; [reflexivity|].
  rewrite IH. destruct Hl as [|y l Hy Hl]; cbn [insert]; [reflexivity|].
  unfold byScoreDescending. rewrite Hx, Hy. reflexivity.
Qed.

Lemma contextOf_unscored (ds : list Document) :
  contextOf (map unscored ds) = join (nl ++ nl) (map pageContent (firstn 6 ds)).
Proof.
  unfold contextOf, selected. rewrite sort_ties.
  - rewrite firstn_map, map_map. reflexivity.
  - apply Forall_map. apply Forall_forall. reflexivity.
Qed.

(** ** What a successful match tells *)

(** A repetition that succeeds hands to its continuation an input that is
    no longer, with the captures it was given. *)
Lemma RepeatMatcher_shorter ic a greedy (c : Continuation) caps (s : string) :
  forall min max y,
  RepeatMatcher ic a greedy c min max caps s = Some y ->
  exists s', c (s', caps) = Some y /\ String.length s' <= String.length s.
Proof.
  induction s as [|ch s IH]; intros min max y H.
  - exists "". split; [|lia].
    destruct max as [[|n]|]; cbn [RepeatMatcher] in H; try assumption;
      destruct (min =? 0); congruence.
  - assert (Hm : forall z,
      (if atomMatches ic a ch
       then RepeatMatcher ic a greedy c (pred min) (option_map pred max) caps s
       else None) = Some z ->
      exists s', c (s', caps) = Some z /\ String.length s' <= String.length (String ch s)).
    { intros z Hz. destruct (atomMatches ic a ch); [|discriminate].
      apply IH in Hz. destruct Hz as (s' & Hc & Hl). exists s'. cbn. split; [assumption | lia]. }
    assert (Hc : forall z, c (String ch s, caps) = Some z ->
      exists s', c (s', caps) = Some z /\ String.length s' <= String.length (String ch s)).
    { intros z Hz. exists (String ch s). split; [assumption | lia]. }
    destruct max as [[|n]|]; cbn [RepeatMatcher] in H.
    + apply Hc. assumption.
    + destruct (negb (min =? 0)); [apply Hm; assumption|].
      destruct greedy.
      * destruct (if atomMatches ic a ch then _ else None) eqn:E;
          [injection H as <-; apply Hm; reflexivity | apply Hc; assumption].
      * destruct (c (String ch s, caps)) eqn:E;
          [injection H as <-; apply Hc; reflexivity | apply Hm; assumption].
    + destruct (negb (min =? 0)); [apply Hm; assumption|].
      destruct greedy.
      * destruct (if atomMatches ic a ch then _ else None) eqn:E;
          [injection H as <-; apply Hm; reflexivity | apply Hc; assumption].
      * destruct (c (String ch s, caps)) eqn:E;
          [injection H as <-; apply Hc; reflexivity | apply Hm; assumption].
Qed.

(** One or more: the input starts with a code unit of the atom. *)
Lemma RepeatMatcher_plus_inv ic a greedy (c : Continuation) caps (s : string) y :
  RepeatMatcher ic a greedy c 1 None caps s = Some y ->
  exists ch t s', s = String ch t /\ atomMatches ic a ch = true /\
    c (s', caps) = Some y /\ String.length s' <= String.length t.
Proof.
  destruct s as [|ch t]; cbn [RepeatMatcher Nat.eqb negb pred option_map];
    [discriminate|].
  destruct (atomMatches ic a ch) eqn:E; [|discriminate].
  intros H. apply RepeatMatcher_shorter in H. destruct H as (s' & Hc & Hl).
  exists ch, t, s'. auto.
Qed.

(** A match that succeeds hands to its continuation an input that is no
    longer; a pattern without groups hands on the captures it was given. *)
Lemma matcher_inv ic (r : Regex) :
  forall (k : Continuation) x y,
  matcher ic r k x = Some y ->
  exists x', k x' = Some y /\
    String.length (fst x') <= String.length (fst x) /\
    (groupFree r = true -> snd x' = snd x).
Proof.
  induction r as [|a|a q|r1 IH1 r2 IH2|r1 IH1 r2 IH2|r1 IH1|n r1 IH1];
    intros k [s caps] y H; cbn [matcher fst snd] in H.
  - exists (s, caps). auto.
  - destruct s as [|ch s']; [discriminate|].
    destruct (atomMatches ic a ch); [|discriminate].
    exists (s', caps). cbn. auto.
  - apply RepeatMatcher_shorter in H. destruct H as (s' & Hc & Hl).
    exists (s', caps). auto.
  - apply IH1 in H. destruct H as (x1 & H1 & L1 & C1).
    apply IH2 in H1. destruct H1 as (x2 & H2 & L2 & C2).
    exists x2. cbn [groupFree fst snd] in *. repeat split; [assumption | lia |].
    intros G. apply andb_true_iff in G. destruct G as [G1 G2].
    rewrite C2, C1; auto.
  - cbn [groupFree].
    destruct (matcher ic r1 k (s, caps)) eqn:E.
    + injection H as <-. apply IH1 in E. destruct E as (x' & Hk & L & C).
      exists x'. repeat split; try assumption.
      intros G. apply andb_true_iff in G. apply C. tauto.
    + apply IH2 in H. destruct H as (x' & Hk & L & C).
      exists x'. repeat split; try assumption.
      intros G. apply andb_true_iff in G. apply C. tauto.
  - cbn [groupFree].
    destruct (matcher ic r1 _ (s, caps)) eqn:E.
    + injection H as <-. apply IH1 in E. destruct E as (x' & Hk & L & C).
      destruct (String.length (fst x') =? String.length s); [discriminate|].
      exists x'. auto.
    + exists (s, caps). auto.
  - apply IH1 in H. destruct H as (x' & Hk & L & C).
    cbn [fst snd] in *. eexists. split; [exact Hk|]. cbn [fst snd groupFree].
    split; [assumption | discriminate].
Qed.

Lemma execFrom_inv re (s : string) :
  forall i m,
  execFrom re s i = Some m ->
  exists s0 rest,
    matchAt re s0 = Some (rest, groups m) /\
    matched m = take (String.length s0 - String.length rest) s0.
Proof.
  induction s as [|ch s IH]; intros i m H; cbn [execFrom] in H.
  - destruct (matchAt re "") as [[rest caps]|] eqn:E; [|discriminate].
    injection H as <-. exists "", rest. auto.
  - destruct (matchAt re (String ch s)) as [[rest caps]|] eqn:E.
    + injection H as <-. exists (String ch s), rest. auto.
    + apply IH in H. assumption.
Qed.

(** A pattern that opens with a captured [a+]: the input starts with a code
    unit of [a], and group 1 is a non-empty prefix of the input. *)
Lemma group_plus_head ic a greedy (R : Regex) (s rest : string) caps :
  groupFree R = true ->
  matcher ic (Seq (Group 1 (Repeat a (plus greedy))) R) (fun y => Some y) (s, [])
    = Some (rest, caps) ->
  exists ch t n, s = String ch t /\ atomMatches ic a ch = true /\
                 caps = [(1, String ch (take n t))].
Proof.
  intros G H. cbn [matcher fst snd plus q_min q_max q_greedy] in H.
  apply RepeatMatcher_plus_inv in H.
  destruct H as (ch & t & s' & -> & Ha & Hc & Hl).
  cbv beta in Hc. cbn [fst snd] in Hc.
  apply matcher_inv in Hc. destruct Hc as ([s2 caps2] & Hk & _ & Hcaps).
  injection Hk as <- <-. cbn [snd] in Hcaps. specialize (Hcaps G).
  exists ch, t, (String.length t - String.length s'). repeat split; try assumption.
  rewrite Hcaps. cbn [String.length].
  replace (S (String.length t) - String.length s')
    with (S (String.length t - String.length s')) by lia.
  reflexivity.
Qed.

(** A pattern that opens with an atom: the matched text starts with a code
    unit of the atom. *)
Lemma term_head ic a (L R : Regex) (s rest : string) caps :
  matcher ic (Seq (Seq (Term a) L) R) (fun y => Some y) (s, []) = Some (rest, caps) ->
  exists ch t n, s = String ch t /\ atomMatches ic a ch = true /\
    take (String.length s - String.length rest) s = String ch (take n t).
Proof.
  intros H. cbn [matcher fst snd] in H.
  destruct s as [|ch t]; [discriminate|].
  destruct (atomMatches ic a ch) eqn:Ha; [|discriminate].
  apply matcher_inv in H. destruct H as (x1 & H1 & L1 & _).
  apply matcher_inv in H1. destruct H1 as ([s2 caps2] & Hk & L2 & _).
  injection Hk as <- <-. cbn [fst] in *.
  exists ch, t, (String.length t - String.length s2). repeat split; try assumption.
  cbn [String.length].
  replace (S (String.length t) - String.length s2)
    with (S (String.length t - String.length s2)) by lia.
  reflexivity.
Qed.

Lemma nameAnswer_head (context : string) :
  exists ch t, nameAnswer context = String ch t /\
    Ascii.eqb (Canonicalize "n") (Canonicalize ch) = true.
Proof.
  unfold nameAnswer. destruct (String_match context namePattern) as [m|] eqn:E.
  - apply execFrom_inv in E. destruct E as (s0 & rest & Hm & ->).
    unfold matchAt, namePattern in Hm. cbn [source ignoreCase seq fold_right] in Hm.
    change (literal "navdeep")
      with (Seq (Term (PatternCharacter "n")) (literal "avdeep")) in Hm.
    apply term_head in Hm. destruct Hm as (ch & t & n & -> & Ha & ->).
    exists ch, (take n t). auto.
  - exists "N"%char, "avdeep Singh". split; reflexivity.
Qed.

Lemma experienceAnswer_head (context : string) :
  experienceAnswer context = "Experience duration not found in context" \/
  exists ch t, experienceAnswer context = String ch t /\ isDigit ch = true.
Proof.
  unfold experienceAnswer.
  destruct (String_match context experiencePattern) as [m|] eqn:E; [right | left; reflexivity].
  apply execFrom_inv in E. destruct E as (s0 & rest & Hm & _).
  unfold matchAt, experiencePattern in Hm. cbn [source ignoreCase seq fold_right] in Hm.
  apply group_plus_head in Hm; [|reflexivity].
  destruct Hm as (ch & t & n & -> & Ha & Hg).
  unfold group. rewrite Hg. cbn [capture Nat.eqb append].
  exists ch, (take n t ++ " years"). auto.
Qed.

Lemma canonical_n (ch : ascii) :
  Ascii.eqb (Canonicalize "n") (Canonicalize ch) = true ->
  isDigit ch = false /\ ch <> "E"%char.
Proof.
  destruct ch as [b0 b1 b2 b3 b4 b5 b6 b7].
  destruct b0, b1, b2, b3, b4, b5, b6, b7; vm_compute; intros H;
    split; congruence.
Qed.

(** No answer of the name rule is an answer of the experience rule. *)
Lemma nameAnswer_not_experienceAnswer (c1 c2 : string) :
  nameAnswer c1 <> experienceAnswer c2.
Proof.
  destruct (nameAnswer_head c1) as (ch & t & -> & Hn).
  apply canonical_n in Hn. destruct Hn as [Hd He].
  destruct (experienceAnswer_head c2) as [-> | (d & u & -> & Hdig)].
  - intros [= -> _]. apply He. reflexivity.
  - intros [= -> _]. congruence.
Qed.

(** ** The ranking *)

Lemma Array_map_inv {A B} (f : A -> Outcome B) (l : list A) :
  forall l', Array_map f l = Returns l' -> Forall2 (fun x y => f x = Returns y) l l'.
Proof.
  induction l as [|x l IH]; intros l' H; cbn [Array_map] in H.
  - injection H as <-. constructor.
  - destruct (f x) as [y|e] eqn:E; cbn [obind] in H; [|discriminate].
    destruct (Array_map f l) as [ys|e]; cbn [obind] in H; [|discriminate].
    injection H as <-. constructor; auto.
Qed.

Lemma scoreDocument_doc host keywords (d : Document) (s : ScoredChunk) :
  scoreDocument host keywords d = Returns s -> doc s = d.
Proof.
  unfold scoreDocument. destruct (Array_reduce _ _ _); cbn [obind]; [|discriminate].
  intros [= <-]. reflexivity.
Qed.

Lemma insert_In (x y : ScoredChunk) (l : list ScoredChunk) :
  In y (insert byScoreDescending x l) -> y = x \/ In y l.
Proof.
  induction l as [|z l IH]; cbn [insert].
  - intros [<-|[]]. auto.
  - destruct (0 <? byScoreDescending x z)%Z; cbn [In]; intuition.
Qed.

Lemma sort_In (y : ScoredChunk) (l : list ScoredChunk) :
  In y (sort byScoreDescending l) -> In y l.
Proof.
  induction l as [|x l IH]; cbn [sort]; [auto|].
  intros H. apply insert_In in H. cbn [In]. intuition.
Qed.

Lemma insert_sorted (x : ScoredChunk) (l : list ScoredChunk) :
  StronglySorted ranksBefore l ->
  StronglySorted ranksBefore (insert byScoreDescending x l).
Proof.
  induction 1 as [|z l Hs IH Hz]; cbn [insert].
  - repeat constructor.
  - unfold byScoreDescending at 1.
    destruct (0 <? Z.of_nat (score z) - Z.of_nat (score x))%Z eqn:E.
    + apply Z.ltb_lt in E. constructor; [assumption|].
      apply Forall_forall. intros y Hy. apply insert_In in Hy.
      destruct Hy as [->|Hy]; [unfold ranksBefore; lia|].
      rewrite Forall_forall in Hz. auto.
    + apply Z.ltb_ge in E. constructor; [constructor; assumption|].
      constructor; [unfold ranksBefore; lia|].
      apply Forall_forall. intros y Hy. rewrite Forall_forall in Hz.
      specialize (Hz y Hy). unfold ranksBefore in *. lia.
Qed.

Lemma sort_sorted (l : list ScoredChunk) :
  StronglySorted ranksBefore (sort byScoreDescending l).
Proof.
  induction l as [|x l IH]; cbn [sort]; [constructor | apply insert_sorted; assumption].
Qed.

Lemma In_firstn {A} (x : A) (n : nat) (l : list A) :
  In x (firstn n l) -> In x l.
Proof.
  revert n. induction l as [|y l IH]; intros [|n]; cbn [firstn In]; intuition eauto.
Qed.

Lemma Forall2_In_r {A B} (R : A -> B -> Prop) (l : list A) (l' : list B) (y : B) :
  Forall2 R l l' -> In y l' -> exists x, In x l /\ R x y.
Proof.
  induction 1 as [|x0 y0 l l' H0 H IH]; cbn [In]; [tauto|].
  intros [<-|Hy]; [eauto|].
  destruct (IH Hy) as (x & Hx & Hr). eauto.
Qed.

Lemma firstn_sorted {A} (R : A -> A -> Prop) (n : nat) (l : list A) :
  StronglySorted R l -> StronglySorted R (firstn n l).
Proof.
  intros H. revert n. induction H as [|x l Hs IH Hx]; intros [|n]; cbn [firstn];
    try constructor; auto.
  apply Forall_forall. intros y Hy. rewrite Forall_forall in Hx.
  apply Hx. eapply In_firstn; eauto.
Qed.

(** What a retrieval that returns has selected: at most six scored chunks
    of the store, best score first. *)
Lemma selected_ranked host keywords (ds : list Document) (scores : list ScoredChunk) :
  Array_map (scoreDocument host keywords) ds = Returns scores ->
  List.length (selected scores) <= 6 /\
  Forall (fun s => In (doc s) ds /\ scoreDocument host keywords (doc s) = Returns s)
         (selected scores) /\
  StronglySorted ranksBefore (selected scores).
Proof.
  intros H. apply Array_map_inv in H. unfold selected. repeat split.
  - apply firstn_le_length.
  - apply Forall_forall. intros s Hs. apply In_firstn, sort_In in Hs.
    destruct (Forall2_In_r _ _ _ _ H Hs) as (d & Hd & Hf).
    pose proof (scoreDocument_doc _ _ _ _ Hf) as ->. auto.
  - apply firstn_sorted, sort_sorted.
Qed.

(** ** The scenarios of the specification, evaluated *)

Example scenario_experience :
  RepoRag.extractAnswer
    (fullPromptOf "I have 5 years of experience" "how many years of experience?")
  = "5 years".
Proof. vm_compute. reflexivity. Qed.

Example scenario_skills :
  RepoRag.extractAnswer
    (fullPromptOf "he writes react and html5" "what skills does he have?")
  = "React, HTML5".
Proof. vm_compute. reflexivity. Qed.

Example scenario_no_rule :
  RepoRag.extractAnswer
    (fullPromptOf "he writes react and html5" "what is the weather today?")
  = fullPromptOf "he writes react and html5" "what is the weather today?".
Proof. vm_compute. reflexivity. Qed.

Example scenario_empty_store :
  parsedContext (fullPromptOf "" "what skills does he have?") = ""
  /\ parsedQuestion (fullPromptOf "" "what skills does he have?")
     = "what skills does he have?".
Proof. vm_compute. split; reflexivity. Qed.

Example scenario_unavailable :
  RepoRagDebug.llm_invoke "any prompt" (world [] None)
  = (after (world [] None) [] [] [line stdout "HF_API_KEY not set" []],
     Returns unavailable).
Proof. vm_compute. reflexivity. Qed.

Example scenario_ranking :
  snd (RepoRag.retriever_invoke referenceHost "what react skills"
         (world [chunk "about react and React"; chunk "nothing"; chunk "skills skills react";
                 chunk "x"; chunk "react"; chunk "y"; chunk "z"; chunk "skills"] None))
  = Returns (join (nl ++ nl)
               ["skills skills react"; "about react and React"; "react"; "skills";
                "nothing"; "x"]).
Proof. vm_compute. reflexivity. Qed.

Example scenario_chain_reports_the_error :
  snd (RepoRag.chain_invoke referenceHost "what is c++" (world [chunk "c++ and rust"] None))
  = Returns "Error: Invalid regular expression: /c++/g: Nothing to repeat".
Proof. vm_compute. reflexivity. Qed.

Example scenario_chain_reports_what_the_adapter_throws :
  snd (RepoRagDebug.chain_invoke referenceHost "what skills does he have"
         (world [chunk "he writes react and html5"] (Some (rejecting null))))
  = Returns "Error: Cannot read properties of null (reading 'message')".
Proof. vm_compute. reflexivity. Qed.

(** ** The generator adapter *)

(** C1 (as amended).  With a credential configured, the instrumented adapter
    sends exactly one request, which carries the full prompt text, the model
    [gpt2] and the fixed parameters; a generated text that is not empty is
    returned verbatim, and a result that is nullish, without text or with an
    empty text yields the prompt text itself.  The main adapter sends no
    request and returns what [extractAnswer] makes of the prompt text. *)
Theorem C1_generator_adapter (client : HfInference) (promptText : string) (w : World) :
  hf (dataStore w) = Some client ->
  requests (fst (RepoRagDebug.llm_invoke promptText w))
    = (requests w ++ [generationRequest promptText])%list
  /\ inputs (generationRequest promptText) = promptText
  /\ (forall text,
        textGeneration client (generationRequest promptText)
          = Returns (Some {| generated_text := Some text |}) ->
        text <> "" ->
        snd (RepoRagDebug.llm_invoke promptText w) = Returns text)
  /\ (forall result,
        textGeneration client (generationRequest promptText) = Returns result ->
        result = None \/ result = Some {| generated_text := None |}
          \/ result = Some {| generated_text := Some "" |} ->
        snd (RepoRagDebug.llm_invoke promptText w) = Returns promptText)
  /\ RepoRag.llm_invoke promptText w = (w, Returns (RepoRag.extractAnswer promptText)).
Proof.
  intros Hhf.
  pose proof (debug_llm_invoke_run promptText w) as Hd. rewrite Hhf in Hd.
  destruct Hd as [lines Hd]. rewrite Hd. cbn [fst snd after requests].
  repeat split.
  - intros text Ht Hne. rewrite Ht. cbn [RepoRagDebug.generatedOr].
    destruct (String.eqb_spec text ""); [contradiction | reflexivity].
  - intros result Hr [ -> | [ -> | -> ] ]; rewrite Hr; reflexivity.
  - rewrite llm_invoke_run, Hhf. reflexivity.
Qed.

Lemma C1_generator_adapter_witness :
  hf (dataStore (world [] (Some (answering "Navdeep Singh")))) = Some (answering "Navdeep Singh")
  /\ snd (RepoRagDebug.llm_invoke "Who is it?" (world [] (Some (answering "Navdeep Singh"))))
     = Returns "Navdeep Singh".
Proof.
  split; [reflexivity|].
  refine (proj1 (proj2 (proj2
    (C1_generator_adapter (answering "Navdeep Singh") "Who is it?"
       (world [] (Some (answering "Navdeep Singh"))) eq_refl))) "Navdeep Singh" eq_refl _).
  discriminate.
Defined.

(** C1, as stated, fails: with a credential configured and a service that
    would answer, the main adapter sends no request and returns the prompt
    text it was given; and the instrumented adapter returns the prompt text,
    not the generated text, when the service generates the empty text. *)
Lemma C1_counterexample :
  let w := world [] (Some (answering "Navdeep Singh")) in
  RepoRag.llm_invoke "Who is it?" w = (w, Returns "Who is it?")
  /\ requests (fst (RepoRag.llm_invoke "Who is it?" w)) = []
  /\ snd (RepoRagDebug.llm_invoke "Who is it?" (world [] (Some (answering ""))))
     = Returns "Who is it?".
Proof. vm_compute. repeat split. Qed.




(** C10.  On every input the instrumented [extractAnswer] returns the string
    the main [extractAnswer] returns; its run differs from a run that does
    nothing by lines written to the console only. *)
Theorem C10_debug_extractor_agrees (input : string) (w : World) :
  exists lines,
  RepoRagDebug.extractAnswer input w
  = (after w [] [] lines, Returns (RepoRag.extractAnswer input)).
Proof. apply debug_extractAnswer_run. Qed.

(** ** The chain *)


(** ** The retriever *)

(** The retrieval of the instrumented script returns what the main one
    returns. *)
Lemma debug_retriever_invoke_result host question (w : World) :
  snd (RepoRagDebug.retriever_invoke host question w)
  = snd (RepoRag.retriever_invoke host question w).
Proof.
  pose proof (debug_retriever_invoke_run host question w) as Hd.
  rewrite retriever_invoke_run.
  destruct (Array_map _ _); destruct Hd as [lines ->]; reflexivity.
Qed.

(** X1.  Whenever a retrieval returns, the context is the contents, joined with
    a blank line, of at most six scored chunks of the store, best score
    first. *)
Theorem retriever_returns_ranked host (question : string) (w : World) (context : string) :
  snd (RepoRag.retriever_invoke host question w) = Returns context ->
  exists top,
    context = join (nl ++ nl) (map (fun s => pageContent (doc s)) top)
    /\ List.length top <= 6
    /\ Forall (fun s => In (doc s) (docs (dataStore w)) /\
                        scoreDocument host (keywordsOf question) (doc s) = Returns s) top
    /\ StronglySorted ranksBefore top.
Proof.
  rewrite retriever_invoke_run.
  destruct (Array_map _ _) as [scores|e] eqn:E; [|discriminate].
  intros [= <-]. exists (selected scores). split; [reflexivity|].
  apply (selected_ranked _ _ _ _ E).
Qed.

(** C2 fails on the code where C2 is right.  A keyword is handed to the
    host as a pattern, unescaped: for the question "what is c++" and a store
    that is not empty, the retrieval throws a syntax error in both scripts,
    whatever the host, where C2 has it return a context. *)
Theorem C2_retriever_throws_on_unescaped_keyword host
    (d : Document) (ds : list Document) (client : option HfInference) :
  (exists msg,
     snd (RepoRag.retriever_invoke host "what is c++" (world (d :: ds) client))
     = Throws (SyntaxError msg))
  /\ (exists msg,
     snd (RepoRagDebug.retriever_invoke host "what is c++" (world (d :: ds) client))
     = Throws (SyntaxError msg)).
Proof.
  rewrite debug_retriever_invoke_result.
  assert (H : exists msg,
    snd (RepoRag.retriever_invoke host "what is c++" (world (d :: ds) client))
    = Throws (SyntaxError msg)); [|split; exact H].
  rewrite retriever_invoke_run.
  change (keywordsOf "what is c++") with ["what"; "c++"].
  cbn [world dataStore docs Array_map]. unfold scoreDocument at 1.
  cbn [Array_reduce].
  destruct (host_accepts host "what" _ eq_refl) as (re & -> & _).
  cbn [obind].
  destruct (host_rejects host "c++" eq_refl) as (msg & ->).
  exists msg. reflexivity.
Qed.

(** C8.  When every token of the lower-cased question is at most two code
    units long, every chunk scores 0 and the retrieval returns the contents
    of the first six chunks, in the order of the store; on the empty store
    the retrieval returns the empty string, whatever the question.  Both
    scripts, every host. *)
Theorem C8_retriever_edge_cases host :
  (forall question w,
     Forall (fun token => String.length token <= 2)
            (split_whitespace (toLowerCase question)) ->
     (forall d, scoreDocument host (keywordsOf question) d = Returns (unscored d))
     /\ snd (RepoRag.retriever_invoke host question w)
        = Returns (join (nl ++ nl) (map pageContent (firstn 6 (docs (dataStore w)))))
     /\ snd (RepoRagDebug.retriever_invoke host question w)
        = Returns (join (nl ++ nl) (map pageContent (firstn 6 (docs (dataStore w))))))
  /\ (forall question w,
     docs (dataStore w) = [] ->
     snd (RepoRag.retriever_invoke host question w) = Returns ""
     /\ snd (RepoRagDebug.retriever_invoke host question w) = Returns "").
Proof.
  split.
  - intros question w Hshort. rewrite debug_retriever_invoke_result.
    rewrite retriever_invoke_run, (keywordsOf_none _ Hshort).
    assert (Hmap : Array_map (scoreDocument host []) (docs (dataStore w))
                   = Returns (map unscored (docs (dataStore w)))).
    { apply (Array_map_total unscored). }
    rewrite Hmap. cbn [snd]. rewrite contextOf_unscored. auto.
  - intros question w Hempty. rewrite debug_retriever_invoke_result.
    rewrite retriever_invoke_run, Hempty. cbn. auto.
Qed.

Lemma C8_retriever_edge_cases_witness :
  let store := [chunk "one"; chunk "two"; chunk "three"; chunk "four"; chunk "five";
                chunk "six"; chunk "seven"] in
  Forall (fun token => String.length token <= 2) (split_whitespace (toLowerCase "Is it so"))
  /\ snd (RepoRag.retriever_invoke referenceHost "Is it so" (world store None))
     = Returns (join (nl ++ nl) ["one"; "two"; "three"; "four"; "five"; "six"])
  /\ snd (RepoRag.retriever_invoke referenceHost "what is c++" (world [] None)) = Returns "".
Proof.
  cbv zeta.
  assert (Hshort : Forall (fun token => String.length token <= 2)
                          (split_whitespace (toLowerCase "Is it so"))).
  { vm_compute. repeat constructor. }
  split; [exact Hshort | split].
  - exact (proj1 (proj2 (proj1 (C8_retriever_edge_cases referenceHost) "Is it so"
             (world [chunk "one"; chunk "two"; chunk "three"; chunk "four"; chunk "five";
                     chunk "six"; chunk "seven"] None) Hshort))).
  - exact (proj1 (proj2 (C8_retriever_edge_cases referenceHost) "what is c++"
             (world [] None) eq_refl)).
Defined.

(** C9.  A retrieval leaves the data store as it found it: the same chunks,
    in the same order, with the same contents, and the same client; this
    holds for both scripts, every host and every question, also when the
    retrieval throws. *)
Theorem C9_retriever_leaves_store_unchanged host (question : string) (w : World) :
  dataStore (fst (RepoRag.retriever_invoke host question w)) = dataStore w
  /\ dataStore (fst (RepoRagDebug.retriever_invoke host question w)) = dataStore w.
Proof.
  pose proof (debug_retriever_invoke_run host question w) as Hd.
  rewrite retriever_invoke_run.
  destruct (Array_map _ _); destruct Hd as [lines ->]; split; reflexivity.
Qed.

(** ** The answer extractor *)

(** C7.  When the question read from the prompt triggers the name rule and
    the experience rule, [extractAnswer] returns the answer of the name rule,
    which is never the answer of the experience rule; both scripts. *)
Theorem C7_name_rule_has_priority (input : string) :
  asksName (parsedQuestion input) = true ->
  asksExperience (parsedQuestion input) = true ->
  RepoRag.extractAnswer input = nameAnswer (parsedContext input)
  /\ RepoRag.extractAnswer input <> experienceAnswer (parsedContext input)
  /\ forall w, snd (RepoRagDebug.extractAnswer input w)
               = Returns (nameAnswer (parsedContext input)).
Proof.
  intros Hname _.
  assert (H : RepoRag.extractAnswer input = nameAnswer (parsedContext input)).
  { unfold RepoRag.extractAnswer. rewrite Hname. reflexivity. }
  repeat split.
  - exact H.
  - rewrite H. apply nameAnswer_not_experienceAnswer.
  - intros w. destruct (debug_extractAnswer_run input w) as [lines ->].
    cbn [snd]. rewrite H. reflexivity.
Qed.

Lemma C7_name_rule_has_priority_witness :
  let input := fullPromptOf "Navdeep Singh has 5 years of experience"
                 "name on the portfolio and years of experience?" in
  asksName (parsedQuestion input) = true
  /\ asksExperience (parsedQuestion input) = true
  /\ experienceAnswer (parsedContext input) = "5 years"
  /\ RepoRag.extractAnswer input = nameAnswer (parsedContext input).
Proof.
  cbv zeta.
  split; [vm_compute; reflexivity|].
  split; [vm_compute; reflexivity|].
  split; [vm_compute; reflexivity|].
  exact (proj1 (C7_name_rule_has_priority
    (fullPromptOf "Navdeep Singh has 5 years of experience"
       "name on the portfolio and years of experience?") eq_refl eq_refl)).
Defined.

(** C4 fails on the code where C4 is right.  The context is lower-cased
    before the name pattern is run on it, so the text the pattern matches is
    lower-cased: for the question of the scenario and a context that holds
    "Navdeep Singh", [extractAnswer] returns "navdeep singh". *)
Theorem C4_name_answer_is_lower_cased :
  let input := fullPromptOf "Portfolio of Navdeep Singh, web developer"
                 "name of the person whose portfolio is this?" in
  parsedQuestion input = "name of the person whose portfolio is this?"
  /\ option_map (group 1) (String_match input contextPattern)
     = Some "Portfolio of Navdeep Singh, web developer"
  /\ includes "Portfolio of Navdeep Singh, web developer" "Navdeep Singh" = true
  /\ RepoRag.extractAnswer input = "navdeep singh"
  /\ snd (RepoRagDebug.extractAnswer input (world [] None)) = Returns "navdeep singh".
Proof. vm_compute. repeat split. Qed.

(** C5 (as amended).  The two fields are read independently of each other.
    The question: where the first "Question: " of the prompt is followed by
    a question and a line feed, the question not empty and without a line
    terminator, the pattern of the question captures the question, whatever
    the rest of the prompt holds, a context or none.  The context: where
    the first "Context:\n" of the prompt is followed by a context and the
    closing marker "\n\nQuestion:", the context not empty and the closing
    marker found nowhere before its end, the pattern of the context
    captures the context, whatever follows the closing marker.  The fields
    are these texts, lower-cased.  A question that starts with a line
    terminator (the empty question, for one) leaves the question field
    empty when "Question: " does not occur again further on; the context
    field is empty when the closing marker occurs nowhere past the first
    code unit after "Context:\n" (the empty context of a prompt with one
    block, for one).  Where "Question: " occurs nowhere the question field
    is empty; where "Context:\n" or "\n\nQuestion:" occurs nowhere the
    context field is empty.  The extractor returns on every input.  The
    texts are texts of the code units 0 to 255, in which the line
    terminators are the line feed and the carriage return. *)
Theorem C5_prompt_fields_are_recovered :
  (forall before question rest,
     let input := before ++ questionMarker ++ question ++ nl ++ rest in
     indexOf input questionMarker = Some (String.length before) ->
     question <> "" ->
     allChars (fun c => negb (isLineTerminator c)) question = true ->
     option_map (group 1) (String_match input questionPattern) = Some question
     /\ parsedQuestion input = toLowerCase question)
  /\ (forall before context rest,
     let input := before ++ contextMarker ++ context ++ closingMarker ++ rest in
     indexOf input contextMarker = Some (String.length before) ->
     context <> "" ->
     indexOf (context ++ closingMarker ++ rest) closingMarker
       = Some (String.length context) ->
     option_map (group 1) (String_match input contextPattern) = Some context
     /\ parsedContext input = toLowerCase context)
  /\ (forall before rest ch,
        let input := before ++ questionMarker ++ String ch rest in
        indexOf input questionMarker = Some (String.length before) ->
        isLineTerminator ch = true ->
        includes (drop 1 (questionMarker ++ String ch rest)) questionMarker = false ->
        parsedQuestion input = "")
  /\ (forall before tail,
        let input := before ++ contextMarker ++ tail in
        indexOf input contextMarker = Some (String.length before) ->
        includes (drop 1 tail) closingMarker = false ->
        parsedContext input = "")
  /\ (forall input, indexOf input questionMarker = None -> parsedQuestion input = "")
  /\ (forall input,
        indexOf input contextMarker = None \/ includes input closingMarker = false ->
        parsedContext input = "")
  /\ (forall input w, exists lines,
        RepoRagDebug.extractAnswer input w
        = (after w [] [] lines, Returns (RepoRag.extractAnswer input))).
Proof.
  split; [|split; [|split; [|split; [|split; [|split]]]]].
  - intros before question rest input Hq Hqne Hline.
    unfold parsedQuestion. subst input.
    rewrite (questionMatch_found before question rest Hq Hqne Hline).
    split; reflexivity.
  - intros before context rest input Hc Hne Hclose.
    unfold parsedContext. subst input.
    rewrite (contextMatch_found before context rest Hc Hne Hclose).
    split; reflexivity.
  - intros before rest ch input Hidx Hch Hlater. unfold parsedQuestion.
    subst input. rewrite questionMatch_blank; auto.
  - intros before tail input Hidx Hlater. unfold parsedContext.
    subst input. rewrite contextMatch_blank; auto.
  - intros input H. unfold parsedQuestion. rewrite questionMatch_absent; auto.
  - intros input H. unfold parsedContext. rewrite contextMatch_absent; auto.
  - intros input w. apply debug_extractAnswer_run.
Qed.

Lemma C5_prompt_fields_are_recovered_witness :
  let input := fullPromptOf "Navdeep Singh knows React" "What skills?" in
  input = (preamble ++ contextMarker ++ "Navdeep Singh knows React" ++ nl ++ nl)
            ++ questionMarker ++ "What skills?" ++ nl ++ closing
  /\ input = preamble ++ contextMarker ++ "Navdeep Singh knows React" ++ closingMarker
               ++ " What skills?" ++ nl ++ closing
  /\ parsedQuestion input = "what skills?"
  /\ parsedContext input = "navdeep singh knows react"
  /\ parsedQuestion ("Question: What skills?" ++ nl) = "what skills?".
Proof.
  cbv zeta.
  split; [vm_compute; reflexivity|].
  split; [vm_compute; reflexivity|].
  assert (Hne1 : "Navdeep Singh knows React" <> "") by discriminate.
  assert (Hne2 : "What skills?" <> "") by discriminate.
  split; [|split].
  - exact (proj2 (proj1 C5_prompt_fields_are_recovered
                    (preamble ++ contextMarker ++ "Navdeep Singh knows React" ++ nl ++ nl)
                    "What skills?" closing eq_refl Hne2 eq_refl)).
  - exact (proj2 (proj1 (proj2 C5_prompt_fields_are_recovered) preamble
                    "Navdeep Singh knows React" (" What skills?" ++ nl ++ closing)
                    eq_refl Hne1 eq_refl)).
  - exact (proj2 (proj1 C5_prompt_fields_are_recovered "" "What skills?" ""
                    eq_refl Hne2 eq_refl)).
Defined.

(** C5, as stated, fails: a question that ends in a carriage return stands
    in the block of the assembled prompt, after the first "Question: " and
    up to the next line feed, and the pattern of the question matches
    nowhere; the question field is empty, and [extractAnswer] returns the
    prompt although the question asks for skills. *)
Lemma C5_counterexample_carriage_return :
  let question := "what skills?" ++ String CR "" in
  let input := fullPromptOf "Navdeep Singh knows React" question in
  input = preamble ++ contextMarker ++ "Navdeep Singh knows React" ++ nl ++ nl
            ++ questionMarker ++ question ++ nl ++ closing
  /\ indexOf input questionMarker
     = Some (String.length (preamble ++ contextMarker ++ "Navdeep Singh knows React" ++ nl ++ nl))
  /\ includes question nl = false
  /\ String_match input questionPattern = None
  /\ parsedQuestion input = ""
  /\ parsedContext input = "navdeep singh knows react"
  /\ asksSkills (toLowerCase question) = true
  /\ RepoRag.extractAnswer input = input.
Proof. vm_compute. repeat split. Qed.

(** * Further properties *)

(** ** More on sorting *)








(** The sort is stable: the chunks of one score keep their order. *)
Lemma insert_stable (k : nat) (x : ScoredChunk) (l : list ScoredChunk) :
  filter (fun s => score s =? k) (insert byScoreDescending x l)
  = filter (fun s => score s =? k) (x :: l).
Proof.
  induction l as [|z l IH]; cbn [insert]; [reflexivity|].
  unfold byScoreDescending at 1.
  destruct (0 <? Z.of_nat (score z) - Z.of_nat (score x))%Z eqn:E; [|reflexivity].
  apply Z.ltb_lt in E. cbn [filter] in *. rewrite IH.
  destruct (score x =? k) eqn:Ex, (score z =? k) eqn:Ez; try reflexivity.
  apply Nat.eqb_eq in Ex, Ez. lia.
Qed.

Lemma sort_stable (k : nat) (l : list ScoredChunk) :
  filter (fun s => score s =? k) (sort byScoreDescending l)
  = filter (fun s => score s =? k) l.
Proof.
  induction l as [|x l IH]; cbn [sort]; [reflexivity|].
  rewrite insert_stable. cbn [filter]. rewrite IH. reflexivity.
Qed.

(** ** More on the retriever *)

(** The array the retrieval sorts, for a store that scores. *)
Lemma retriever_invoke_returns host question (w : World) (scores : list ScoredChunk) :
  Array_map (scoreDocument host (keywordsOf question)) (docs (dataStore w)) = Returns scores ->
  RepoRag.retriever_invoke host question w
  = (after w [sort byScoreDescending scores; selected scores] [] [],
     Returns (contextOf scores)).
Proof. intros H. rewrite retriever_invoke_run, H. reflexivity. Qed.


Lemma retriever_returns_ranked_witness :
  snd (RepoRag.retriever_invoke referenceHost "what react skills" (world sampleStore None))
    = Returns sampleContext
  /\ exists top,
       sampleContext = join (nl ++ nl) (map (fun s => pageContent (doc s)) top)
       /\ List.length top <= 6
       /\ Forall (fun s => In (doc s) sampleStore /\
                    scoreDocument referenceHost (keywordsOf "what react skills") (doc s)
                    = Returns s) top
       /\ StronglySorted ranksBefore top.
Proof.
  assert (H : snd (RepoRag.retriever_invoke referenceHost "what react skills"
                     (world sampleStore None)) = Returns sampleContext)
    by (vm_compute; reflexivity).
  split; [exact H|].
  exact (retriever_returns_ranked referenceHost "what react skills"
           (world sampleStore None) sampleContext H).
Defined.


(** X3.  Whenever a retrieval returns, the array it sorted holds the scored
    chunks of the store, those of one score in the order of the store, and
    the context is made of its first six. *)
Theorem ties_keep_store_order host (question : string) (w : World) (context : string) :
  snd (RepoRag.retriever_invoke host question w) = Returns context ->
  exists scores sorted,
    Forall2 (fun d s => scoreDocument host (keywordsOf question) d = Returns s)
            (docs (dataStore w)) scores
    /\ arrays (fst (RepoRag.retriever_invoke host question w))
       = (arrays w ++ [sorted; firstn 6 sorted])%list
    /\ context = join (nl ++ nl) (map (fun s => pageContent (doc s)) (firstn 6 sorted))
    /\ forall k, filter (fun s => score s =? k) sorted
                = filter (fun s => score s =? k) scores.
Proof.
  rewrite retriever_invoke_run.
  destruct (Array_map _ _) as [scores|e] eqn:E; [|discriminate].
  intros [= <-]. exists scores, (sort byScoreDescending scores).
  cbn [fst after arrays]. repeat split.
  - apply Array_map_inv. exact E.
  - intros k. apply sort_stable.
Qed.

Lemma ties_keep_store_order_witness :
  snd (RepoRag.retriever_invoke referenceHost "what react skills" (world sampleStore None))
    = Returns sampleContext
  /\ exists sorted,
       arrays (fst (RepoRag.retriever_invoke referenceHost "what react skills"
                      (world sampleStore None)))
       = [sorted; firstn 6 sorted]
       /\ map (fun s => pageContent (doc s)) (filter (fun s => score s =? 0) sorted)
          = ["nothing"; "x"; "y"; "z"].
Proof.
  assert (H : snd (RepoRag.retriever_invoke referenceHost "what react skills"
                     (world sampleStore None)) = Returns sampleContext)
    by (vm_compute; reflexivity).
  split; [exact H|].
  destruct (ties_keep_store_order referenceHost "what react skills"
              (world sampleStore None) sampleContext H)
    as (scores & sorted & _ & Ha & _ & _).
  exists sorted. split; [exact Ha|].
  vm_compute in Ha. injection Ha as <-. vm_compute. reflexivity.
Defined.

(** ** Keywords without pattern syntax *)

Lemma parsePattern_plain (kw : string) :
  plain kw = true -> parsePattern kw = Pattern (literal kw).
Proof.
  unfold plain. induction kw as [|c kw IH]; cbn [allChars parsePattern literal];
    [reflexivity|].
  intros H. apply andb_true_iff in H. destruct H as [Hc Hkw].
  unfold isSyntaxCharacter in Hc. apply negb_true_iff in Hc.
  apply orb_false_iff in Hc. destruct Hc as [Hc Hdot].
  apply orb_false_iff in Hc. destruct Hc as [Hq Ho].
  rewrite Hq, Ho. unfold atomOf. rewrite Hdot.
  destruct kw as [|q kw'].
  - reflexivity.
  - assert (Hq' : isQuantifierPrefix q = false).
    { cbn [allChars] in Hkw. apply andb_true_iff in Hkw. destruct Hkw as [Hk _].
      unfold isSyntaxCharacter in Hk. apply negb_true_iff in Hk.
      apply orb_false_iff in Hk. destruct Hk as [Hk _].
      apply orb_false_iff in Hk. tauto. }
    rewrite Hq', (IH Hkw). reflexivity.
Qed.

Lemma matchAt_literal (kw s : string) :
  matchAt {| source := literal kw; ignoreCase := false |} s
  = if startsWith s kw then Some (drop (String.length kw) s, []) else None.
Proof.
  unfold matchAt. cbn [source ignoreCase].
  destruct (startsWith s kw) eqn:E.
  - apply startsWith_inv in E. rewrite E at 1. rewrite matcher_literal_app. reflexivity.
  - apply matcher_literal_fail. assumption.
Qed.

Lemma matchesFrom_absent (kw s : string) :
  (forall j, startsWith (drop j s) kw = false) ->
  forall skip, matchesFrom {| source := literal kw; ignoreCase := false |} s skip = [].
Proof.
  induction s as [|c s IH]; intros H skip.
  - destruct skip; cbn [matchesFrom]; [|reflexivity].
    rewrite matchAt_literal. pose proof (H 0) as H0. cbn [drop] in H0. rewrite H0.
    reflexivity.
  - destruct skip; cbn [matchesFrom].
    + rewrite matchAt_literal. pose proof (H 0) as H0. cbn [drop] in H0. rewrite H0.
      apply IH. intros j. apply (H (S j)).
    + apply IH. intros j. apply (H (S j)).
Qed.

Lemma matchesFrom_present (kw s : string) :
  includes s kw = true ->
  matchesFrom {| source := literal kw; ignoreCase := false |} s 0 <> [].
Proof.
  induction s as [|c s IH]; cbn [includes matchesFrom]; rewrite matchAt_literal;
    intros H.
  - rewrite orb_false_r in H. rewrite H. discriminate.
  - destruct (startsWith (String c s) kw); [discriminate|].
    cbn [orb] in H. apply IH. assumption.
Qed.

Lemma occurrences_zero (kw s : string) :
  occurrences kw s = 0 <-> includes s kw = false.
Proof.
  unfold occurrences. split; intros H.
  - destruct (includes s kw) eqn:E; [|reflexivity].
    apply matchesFrom_present in E. destruct (matchesFrom _ s 0); [congruence | discriminate].
  - rewrite matchesFrom_absent; [reflexivity | apply includes_false; assumption].
Qed.

Lemma reads_plain (kw : string) : plain kw = true -> reads kw = true.
Proof. intros H. unfold reads. rewrite (parsePattern_plain kw H). reflexivity. Qed.

Lemma matchCount_plain (kw s : string) :
  plain kw = true -> matchCount kw s = occurrences kw s.
Proof. intros H. unfold matchCount. rewrite (parsePattern_plain kw H). reflexivity. Qed.

(** The score of a chunk for keywords that read as patterns: the matches,
    added up. *)
Lemma reduce_reads host (content : string) (keywords : list string) :
  Forall (fun kw => reads kw = true) keywords ->
  forall count,
  Array_reduce
    (fun count kw =>
       obind (RegExp_new host kw) (fun regex =>
         Returns (count + List.length
                    (match match_global host content regex with
                     | Some matches => matches
                     | None => []
                     end))))
    keywords count
  = Returns (count + list_sum (map (fun kw => matchCount kw content) keywords)).
Proof.
  induction 1 as [|kw kws Hkw _ IH]; intros count; cbn [Array_reduce map].
  - cbn. rewrite Nat.add_0_r. reflexivity.
  - unfold reads in Hkw. unfold matchCount at 1.
    destruct (parsePattern kw) as [r| |] eqn:E; try discriminate.
    destruct (host_accepts host kw r E) as (re & -> & Hm).
    cbn [obind]. rewrite IH, Hm. f_equal. unfold String_match_global.
    change (list_sum (?x :: ?l)) with (x + list_sum l).
    destruct (matchesFrom _ content 0); cbv beta iota; cbn [List.length]; lia.
Qed.

Lemma scoreDocument_reads host (keywords : list string) (d : Document) :
  Forall (fun kw => reads kw = true) keywords ->
  scoreDocument host keywords d
  = Returns {| doc := d;
               score := list_sum (map (fun kw => matchCount kw (toLowerCase (pageContent d)))
                                      keywords) |}.
Proof.
  intros H. unfold scoreDocument. rewrite (reduce_reads host _ _ H). reflexivity.
Qed.

Lemma list_sum_zero (l : list nat) :
  list_sum l = 0 <-> Forall (fun n => n = 0) l.
Proof.
  induction l as [|n l IH].
  - split; [constructor | reflexivity].
  - change (list_sum (n :: l)) with (n + list_sum l). split.
    + intros H. constructor; [lia | apply IH; lia].
    + intros H. inversion H as [|? ? Hn Hl]; subst. apply IH in Hl. lia.
Qed.

(** Every chunk of a store scores when the keywords read as patterns. *)
Lemma Array_map_reads host (keywords : list string) (ds : list Document) :
  Forall (fun kw => reads kw = true) keywords ->
  exists scores, Array_map (scoreDocument host keywords) ds = Returns scores.
Proof.
  intros H. induction ds as [|d ds [scores IH]]; cbn [Array_map]; [eauto|].
  rewrite (scoreDocument_reads host _ d H), IH. cbn [obind]. eauto.
Qed.

(** X4.  If every keyword of the question reads as a pattern (characters, [.],
    and quantifiers that follow an atom), the retrieval returns, in both
    scripts and for every host and store, and the main chain answers with
    what the adapter makes of the assembled prompt, not with an error. *)
Theorem readable_keywords_retrieve host (question : string) (w : World) :
  Forall (fun kw => reads kw = true) (keywordsOf question) ->
  exists context,
    snd (RepoRag.retriever_invoke host question w) = Returns context
    /\ snd (RepoRagDebug.retriever_invoke host question w) = Returns context
    /\ snd (RepoRag.chain_invoke host question w)
       = Returns (match hf (dataStore w) with
                  | None => unavailable
                  | Some _ => RepoRag.extractAnswer (fullPromptOf context question)
                  end).
Proof.
  intros H.
  destruct (Array_map_reads host _ (docs (dataStore w)) H) as [scores E].
  exists (contextOf scores).
  rewrite debug_retriever_invoke_result, chain_invoke_run, retriever_invoke_run, E.
  repeat split.
Qed.

Lemma readable_keywords_retrieve_witness :
  Forall (fun kw => reads kw = true) (keywordsOf "name of the person whose portfolio is this?")
  /\ exists context,
       snd (RepoRag.retriever_invoke referenceHost
              "name of the person whose portfolio is this?" (world sampleStore None))
       = Returns context.
Proof.
  assert (H : Forall (fun kw => reads kw = true)
                (keywordsOf "name of the person whose portfolio is this?")).
  { vm_compute. repeat constructor. }
  split; [exact H|].
  destruct (readable_keywords_retrieve referenceHost
              "name of the person whose portfolio is this?" (world sampleStore None) H)
    as (context & Hc & _).
  exists context. exact Hc.
Defined.

(** X5.  For keywords without pattern syntax the score of a chunk is the number
    of occurrences of the keywords in its lower-cased content, added up; it
    is 0 exactly when no keyword occurs there. *)
Theorem score_counts_plain_keywords host (question : string) (d : Document) :
  Forall (fun kw => plain kw = true) (keywordsOf question) ->
  exists n,
    scoreDocument host (keywordsOf question) d = Returns {| doc := d; score := n |}
    /\ n = list_sum (map (fun kw => occurrences kw (toLowerCase (pageContent d)))
                         (keywordsOf question))
    /\ (n = 0 <->
        Forall (fun kw => includes (toLowerCase (pageContent d)) kw = false)
               (keywordsOf question)).
Proof.
  intros H.
  assert (Hr : Forall (fun kw => reads kw = true) (keywordsOf question)).
  { eapply Forall_impl; [|exact H]. intros kw. apply reads_plain. }
  assert (Hsum : map (fun kw => matchCount kw (toLowerCase (pageContent d)))
                     (keywordsOf question)
                 = map (fun kw => occurrences kw (toLowerCase (pageContent d)))
                       (keywordsOf question)).
  { induction H as [|kw kws Hkw _ IH]; cbn [map]; [reflexivity|].
    inversion Hr; subst. rewrite (matchCount_plain kw _ Hkw), IH; auto. }
  eexists. split; [rewrite (scoreDocument_reads host _ d Hr), Hsum; reflexivity|].
  split; [reflexivity|].
  rewrite list_sum_zero, Forall_map. split; intros F.
  - eapply Forall_impl; [|exact F]. intros kw. apply occurrences_zero.
  - eapply Forall_impl; [|exact F]. intros kw. apply occurrences_zero.
Qed.

Lemma score_counts_plain_keywords_witness :
  Forall (fun kw => plain kw = true) (keywordsOf "what react skills")
  /\ exists n,
       scoreDocument referenceHost (keywordsOf "what react skills")
         (chunk "about react and React") = Returns {| doc := chunk "about react and React";
                                                      score := n |}
       /\ n = 2.
Proof.
  assert (H : Forall (fun kw => plain kw = true) (keywordsOf "what react skills")).
  { vm_compute. repeat constructor. }
  split; [exact H|].
  destruct (score_counts_plain_keywords referenceHost "what react skills"
              (chunk "about react and React") H) as (n & Hs & Hn & _).
  exists n. split; [exact Hs|]. rewrite Hn. vm_compute. reflexivity.
Defined.

(** X6.  A query leaves nothing behind that a later query reads: after a whole
    run of the chain, on any question, a retrieval completes as it does in
    the world before that run.  Both scripts. *)
Theorem queries_do_not_interfere host (question earlier : string) (w : World) :
  snd (RepoRag.retriever_invoke host question
         (fst (RepoRag.chain_invoke host earlier w)))
    = snd (RepoRag.retriever_invoke host question w)
  /\ snd (RepoRagDebug.retriever_invoke host question
            (fst (RepoRagDebug.chain_invoke host earlier w)))
    = snd (RepoRagDebug.retriever_invoke host question w).
Proof.
  assert (Hstore : forall w1 w2, dataStore w1 = dataStore w2 ->
            snd (RepoRag.retriever_invoke host question w1)
            = snd (RepoRag.retriever_invoke host question w2)).
  { intros w1 w2 Hd. rewrite !retriever_invoke_run, Hd.
    destruct (Array_map _ _); reflexivity. }
  split.
  - apply Hstore. rewrite chain_invoke_run.
    destruct (Array_map _ _) as [scores|[err|v]]; reflexivity.
  - rewrite !debug_retriever_invoke_result. apply Hstore.
    pose proof (debug_chain_invoke_run host earlier w) as Hc.
    destruct (Array_map _ _) as [scores|[err|v]].
    + destruct Hc as (lines & ->). reflexivity.
    + destruct Hc as (lines & ->). reflexivity.
    + destruct Hc as (lines & ->). reflexivity.
Qed.

(** X7.  A retrieval sends no request to the generation service and leaves the
    arrays it found in place: it only allocates; the main script writes
    nothing to the console.  Both scripts, also when the retrieval
    throws. *)
Theorem retrieval_only_allocates host (question : string) (w : World) :
  (requests (fst (RepoRag.retriever_invoke host question w)) = requests w
   /\ console (fst (RepoRag.retriever_invoke host question w)) = console w
   /\ exists new, arrays (fst (RepoRag.retriever_invoke host question w))
                  = (arrays w ++ new)%list)
  /\ (requests (fst (RepoRagDebug.retriever_invoke host question w)) = requests w
   /\ exists new, arrays (fst (RepoRagDebug.retriever_invoke host question w))
                  = (arrays w ++ new)%list).
Proof.
  pose proof (debug_retriever_invoke_run host question w) as Hd.
  rewrite retriever_invoke_run.
  destruct (Array_map _ _) as [scores|e]; destruct Hd as [lines ->];
    cbn [fst after requests console arrays]; rewrite ?app_nil_r;
    repeat split; try (eexists; reflexivity).
  all: exists []; rewrite app_nil_r; reflexivity.
Qed.

(** ** The keywords *)

Lemma allChars_revString (p : ascii -> bool) (s acc : string) :
  allChars p (revString acc s) = allChars p s && allChars p acc.
Proof.
  revert acc. induction s as [|c s IH]; intros acc; cbn [revString allChars].
  - reflexivity.
  - rewrite IH. cbn [allChars]. destruct (p c), (allChars p s), (allChars p acc); reflexivity.
Qed.

(** The pieces of a split hold code units of the text only. *)
Lemma splitRuns_chars (p : ascii -> bool) (s : string) :
  forall cur inRun,
  allChars p s = true -> allChars p cur = true ->
  Forall (fun piece => allChars p piece = true) (splitRuns s cur inRun).
Proof.
  induction s as [|c s IH]; intros cur inRun Hs Hcur; cbn [splitRuns].
  - constructor; [|constructor]. rewrite allChars_revString, Hcur. reflexivity.
  - cbn [allChars] in Hs. apply andb_true_iff in Hs. destruct Hs as [Hc Hs].
    destruct (isWhiteSpace c).
    + destruct inRun; [apply IH; assumption|].
      constructor; [rewrite allChars_revString, Hcur; reflexivity|].
      apply IH; [assumption | reflexivity].
    + apply IH; [assumption|]. cbn [allChars]. rewrite Hc, Hcur. reflexivity.
Qed.

(** The pieces of a split hold no white space. *)
Lemma splitRuns_no_space (s : string) :
  forall cur inRun,
  allChars (fun c => negb (isWhiteSpace c)) cur = true ->
  Forall (fun piece => allChars (fun c => negb (isWhiteSpace c)) piece = true)
         (splitRuns s cur inRun).
Proof.
  induction s as [|c s IH]; intros cur inRun Hcur; cbn [splitRuns].
  - constructor; [|constructor]. rewrite allChars_revString, Hcur. reflexivity.
  - destruct (isWhiteSpace c) eqn:E.
    + destruct inRun; [apply IH; assumption|].
      constructor; [rewrite allChars_revString, Hcur; reflexivity|].
      apply IH. reflexivity.
    + apply IH. cbn [allChars]. rewrite E, Hcur. reflexivity.
Qed.

Lemma toLowerChar_idempotent (c : ascii) : toLowerChar (toLowerChar c) = toLowerChar c.
Proof.
  destruct c as [b0 b1 b2 b3 b4 b5 b6 b7].
  destruct b0, b1, b2, b3, b4, b5, b6, b7; vm_compute; reflexivity.
Qed.

Lemma toLowerCase_idempotent (s : string) : toLowerCase (toLowerCase s) = toLowerCase s.
Proof.
  induction s as [|c s IH]; cbn [toLowerCase]; [reflexivity|].
  rewrite toLowerChar_idempotent, IH. reflexivity.
Qed.

Lemma toLowerCase_lowerCased (s : string) : allChars isLowerCased (toLowerCase s) = true.
Proof.
  induction s as [|c s IH]; cbn [toLowerCase allChars]; [reflexivity|].
  rewrite IH, andb_true_r. unfold isLowerCased.
  rewrite toLowerChar_idempotent. apply Ascii.eqb_refl.
Qed.

Lemma lowerCased_fixed (s : string) :
  allChars isLowerCased s = true -> toLowerCase s = s.
Proof.
  induction s as [|c s IH]; cbn [toLowerCase allChars]; [reflexivity|].
  intros H. apply andb_true_iff in H. destruct H as [Hc Hs].
  apply Ascii.eqb_eq in Hc. rewrite Hc, IH; auto.
Qed.

(** X8.  Every keyword is longer than two code units, holds no white space and
    is in lower case; and the keywords do not depend on the letter case of
    the question. *)
Theorem keywords_are_normalized (question : string) :
  Forall (fun kw => 2 < String.length kw
                    /\ allChars (fun c => negb (isWhiteSpace c)) kw = true
                    /\ toLowerCase kw = kw)
         (keywordsOf question)
  /\ keywordsOf (toLowerCase question) = keywordsOf question.
Proof.
  split.
  - unfold keywordsOf, split_whitespace.
    pose proof (splitRuns_no_space (toLowerCase question) "" false eq_refl) as Hs.
    pose proof (splitRuns_chars isLowerCased (toLowerCase question) "" false
                  (toLowerCase_lowerCased question) eq_refl) as Hl.
    revert Hs Hl. generalize (splitRuns (toLowerCase question) "" false).
    intros l Hs Hl. induction l as [|p l IH]; cbn [filter]; [constructor|].
    inversion Hs; subst. inversion Hl; subst.
    destruct (2 <? String.length p) eqn:E; [|auto].
    constructor; [|auto]. apply Nat.ltb_lt in E.
    repeat split; [assumption | assumption | apply lowerCased_fixed; assumption].
  - unfold keywordsOf. rewrite toLowerCase_idempotent. reflexivity.
Qed.

(** ** More on matching *)

(** A repetition that succeeds has consumed code units of its atom. *)
Lemma RepeatMatcher_consumed ic a greedy (c : Continuation) caps (s : string) :
  forall min max y,
  RepeatMatcher ic a greedy c min max caps s = Some y ->
  exists q s', s = q ++ s' /\ allChars (atomMatches ic a) q = true /\
               c (s', caps) = Some y.
Proof.
  induction s as [|ch s IH]; intros min max y H.
  - exists "", "". repeat split.
    destruct max as [[|n]|]; cbn [RepeatMatcher] in H; try assumption;
      destruct (min =? 0); congruence.
  - assert (Hm : forall z,
      (if atomMatches ic a ch
       then RepeatMatcher ic a greedy c (pred min) (option_map pred max) caps s
       else None) = Some z ->
      exists q s', String ch s = q ++ s' /\ allChars (atomMatches ic a) q = true /\
                   c (s', caps) = Some z).
    { intros z Hz. destruct (atomMatches ic a ch) eqn:Ea; [|discriminate].
      apply IH in Hz. destruct Hz as (q & s' & -> & Hq & Hc).
      exists (String ch q), s'. cbn [append allChars]. rewrite Ea, Hq. auto. }
    assert (Hc : forall z, c (String ch s, caps) = Some z ->
      exists q s', String ch s = q ++ s' /\ allChars (atomMatches ic a) q = true /\
                   c (s', caps) = Some z).
    { intros z Hz. exists "", (String ch s). auto. }
    destruct max as [[|n]|]; cbn [RepeatMatcher] in H.
    + apply Hc. assumption.
    + destruct (negb (min =? 0)); [apply Hm; assumption|].
      destruct greedy.
      * destruct (if atomMatches ic a ch then _ else None) eqn:E;
          [injection H as <-; apply Hm; reflexivity | apply Hc; assumption].
      * destruct (c (String ch s, caps)) eqn:E;
          [injection H as <-; apply Hc; reflexivity | apply Hm; assumption].
    + destruct (negb (min =? 0)); [apply Hm; assumption|].
      destruct greedy.
      * destruct (if atomMatches ic a ch then _ else None) eqn:E;
          [injection H as <-; apply Hm; reflexivity | apply Hc; assumption].
      * destruct (c (String ch s, caps)) eqn:E;
          [injection H as <-; apply Hc; reflexivity | apply Hm; assumption].
Qed.

(** A successful search has matched at some position of the text. *)
Lemma execFrom_position re (s : string) :
  forall i m,
  execFrom re s i = Some m ->
  exists j rest,
    matchAt re (drop j s) = Some (rest, groups m) /\
    matched m = take (String.length (drop j s) - String.length rest) (drop j s).
Proof.
  induction s as [|ch s IH]; intros i m H; cbn [execFrom] in H.
  - destruct (matchAt re "") as [[rest caps]|] eqn:E; [|discriminate].
    injection H as <-. exists 0, rest. auto.
  - destruct (matchAt re (String ch s)) as [[rest caps]|] eqn:E.
    + injection H as <-. exists 0, rest. auto.
    + apply IH in H. destruct H as (j & rest & H1 & H2). exists (S j), rest. auto.
Qed.

Lemma includes_at (s m : string) (j : nat) :
  startsWith (drop j s) m = true -> includes s m = true.
Proof.
  revert s. induction j as [|j IH]; intros s H.
  - cbn [drop] in H. destruct s; cbn [includes]; rewrite H; reflexivity.
  - destruct s as [|c s]; cbn [drop] in H.
    + cbn [includes]. rewrite H. reflexivity.
    + cbn [includes]. rewrite (IH s H). apply orb_true_r.
Qed.

Lemma allChars_take (p : ascii -> bool) (n : nat) (s : string) :
  allChars p s = true -> allChars p (take n s) = true.
Proof.
  revert n. induction s as [|c s IH]; intros [|n] H; cbn [take allChars]; try reflexivity.
  cbn [allChars] in H. apply andb_true_iff in H. destruct H as [Hc Hs].
  rewrite Hc, IH; auto.
Qed.

Lemma allChars_drop (p : ascii -> bool) (n : nat) (s : string) :
  allChars p s = true -> allChars p (drop n s) = true.
Proof.
  revert s. induction n as [|n IH]; intros s H; [destruct s; exact H|].
  destruct s as [|c s]; cbn [drop]; [exact H|].
  cbn [allChars] in H. apply andb_true_iff in H. apply IH. tauto.
Qed.

Lemma startsWith_take (s : string) (n : nat) : startsWith s (take n s) = true.
Proof.
  unfold startsWith. revert n. induction s as [|c s IH]; intros [|n]; cbn [take prefix];
    try reflexivity.
  destruct (ascii_dec c c); [apply IH | congruence].
Qed.

(** ** More on the answer extractor *)

(** A pattern that opens with a captured [a+]: group 1 is the run of code
    units of [a] the input starts with, as far as the repetition went. *)
Lemma group_plus_capture ic a greedy (R : Regex) (s rest : string) caps :
  groupFree R = true ->
  matcher ic (Seq (Group 1 (Repeat a (plus greedy))) R) (fun y => Some y) (s, [])
    = Some (rest, caps) ->
  exists ch q s', s = String ch q ++ s' /\ atomMatches ic a ch = true /\
                  allChars (atomMatches ic a) q = true /\
                  caps = [(1, String ch q)].
Proof.
  intros G H. cbn [matcher fst snd plus q_min q_max q_greedy] in H.
  destruct s as [|ch t]; cbn [RepeatMatcher Nat.eqb negb pred option_map] in H;
    [discriminate|].
  destruct (atomMatches ic a ch) eqn:Ech; [|discriminate].
  apply RepeatMatcher_consumed in H. destruct H as (q & s' & -> & Hq & Hc).
  cbv beta in Hc. cbn [fst snd] in Hc.
  apply matcher_inv in Hc. destruct Hc as ([s2 caps2] & Hk & _ & Hcaps).
  injection Hk as <- <-. cbn [snd] in Hcaps. specialize (Hcaps G).
  change (String ch (q ++ s')) with (String ch q ++ s') in Hcaps.
  rewrite take_consumed in Hcaps.
  exists ch, q, s'. auto.
Qed.

(** The answer of the experience rule: the sentinel when the pattern
    matches nowhere, and otherwise a non-empty run of digits that occurs in
    the context, followed by " years". *)
Lemma experienceAnswer_shape (context : string) :
  (String_match context experiencePattern = None
   /\ experienceAnswer context = experienceNotFound)
  \/ (String_match context experiencePattern <> None
      /\ exists digits,
        experienceAnswer context = digits ++ " years"
        /\ digits <> ""
        /\ allChars isDigit digits = true
        /\ includes context digits = true).
Proof.
  unfold experienceAnswer.
  destruct (String_match context experiencePattern) as [m|] eqn:E; [right | left; auto].
  split; [discriminate|].
  apply execFrom_position in E. destruct E as (j & rest & Hm & _).
  unfold matchAt, experiencePattern in Hm. cbn [source ignoreCase seq fold_right] in Hm.
  apply group_plus_capture in Hm; [|reflexivity].
  destruct Hm as (ch & q & s' & D & Ech & Hq & Hg).
  exists (String ch q). unfold group. rewrite Hg. cbn [capture Nat.eqb].
  repeat split.
  - discriminate.
  - cbn [allChars]. cbn [atomMatches classEscapeMatches] in Ech, Hq.
    rewrite Ech. exact Hq.
  - apply (includes_at context _ j). rewrite D. apply startsWith_append.
Qed.

(** The answer of the name rule: the literal when the pattern matches
    nowhere, and text of the context otherwise. *)
Lemma nameAnswer_shape (context : string) :
  (String_match context namePattern = None /\ nameAnswer context = "Navdeep Singh")
  \/ exists j n, nameAnswer context = take n (drop j context).
Proof.
  unfold nameAnswer.
  destruct (String_match context namePattern) as [m|] eqn:E; [right | left; auto].
  apply execFrom_position in E. destruct E as (j & rest & _ & ->). eauto.
Qed.

Lemma parsedContext_lowerCased (input : string) :
  allChars isLowerCased (parsedContext input) = true.
Proof.
  unfold parsedContext. destruct (String_match input contextPattern);
    [apply toLowerCase_lowerCased | reflexivity].
Qed.

(** X9.  When the question read from the prompt triggers the name rule, the
    answer is the capitalised literal exactly when the name pattern matches
    nowhere in the context; when the pattern matches, the answer is text of
    the lower-cased context, in lower case.  Both scripts. *)
Theorem name_rule_answers_in_lower_case (input : string) :
  asksName (parsedQuestion input) = true ->
  ((String_match (parsedContext input) namePattern = None
    /\ RepoRag.extractAnswer input = "Navdeep Singh")
   \/ (String_match (parsedContext input) namePattern <> None
       /\ toLowerCase (RepoRag.extractAnswer input) = RepoRag.extractAnswer input
       /\ includes (parsedContext input) (RepoRag.extractAnswer input) = true
       /\ RepoRag.extractAnswer input <> "Navdeep Singh"))
  /\ forall w, snd (RepoRagDebug.extractAnswer input w)
               = Returns (RepoRag.extractAnswer input).
Proof.
  intros Hname. split.
  - assert (H : RepoRag.extractAnswer input = nameAnswer (parsedContext input)).
    { unfold RepoRag.extractAnswer. rewrite Hname. reflexivity. }
    rewrite H. unfold nameAnswer.
    destruct (String_match (parsedContext input) namePattern) as [m|] eqn:E;
      [right | left; auto].
    apply execFrom_position in E. destruct E as (j & rest & _ & ->).
    assert (Hlow : allChars isLowerCased
                     (take (String.length (drop j (parsedContext input)) - String.length rest)
                           (drop j (parsedContext input))) = true).
    { apply allChars_take, allChars_drop, parsedContext_lowerCased. }
    repeat split.
    + discriminate.
    + apply lowerCased_fixed. exact Hlow.
    + apply (includes_at _ _ j). apply startsWith_take.
    + intros Heq. rewrite Heq in Hlow. discriminate Hlow.
  - intros w. destruct (debug_extractAnswer_run input w) as [lines ->]. reflexivity.
Qed.

Lemma name_rule_answers_in_lower_case_witness :
  let input := fullPromptOf "Portfolio of Navdeep Singh" "name on this portfolio?" in
  asksName (parsedQuestion input) = true
  /\ RepoRag.extractAnswer input = "navdeep singh"
  /\ forall w, snd (RepoRagDebug.extractAnswer input w) = Returns (RepoRag.extractAnswer input).
Proof.
  cbv zeta.
  split; [vm_compute; reflexivity|].
  split; [vm_compute; reflexivity|].
  exact (proj2 (name_rule_answers_in_lower_case
                  (fullPromptOf "Portfolio of Navdeep Singh" "name on this portfolio?")
                  eq_refl)).
Defined.

(** X10.  When the question read from the prompt triggers the experience
    rule and not the name rule: if the pattern matches nowhere in the
    context the answer is the sentinel, and if it matches somewhere the
    answer is a non-empty run of digits that occurs in the context,
    followed by " years", which is never the sentinel.  Both scripts. *)
Theorem experience_rule_answers_with_digits (input : string) :
  asksName (parsedQuestion input) = false ->
  asksExperience (parsedQuestion input) = true ->
  ((String_match (parsedContext input) experiencePattern = None
    /\ RepoRag.extractAnswer input = experienceNotFound)
   \/ (String_match (parsedContext input) experiencePattern <> None
       /\ RepoRag.extractAnswer input <> experienceNotFound
       /\ exists digits,
           RepoRag.extractAnswer input = digits ++ " years"
           /\ digits <> ""
           /\ allChars isDigit digits = true
           /\ includes (parsedContext input) digits = true))
  /\ forall w, snd (RepoRagDebug.extractAnswer input w)
               = Returns (RepoRag.extractAnswer input).
Proof.
  intros Hname Hexp. split.
  - assert (H : RepoRag.extractAnswer input = experienceAnswer (parsedContext input)).
    { unfold RepoRag.extractAnswer. rewrite Hname, Hexp. reflexivity. }
    rewrite H.
    destruct (experienceAnswer_shape (parsedContext input))
      as [Hnone | (Hsome & digits & Ha & Hne & Hd & Hi)]; [left; exact Hnone | right].
    split; [exact Hsome|]. split; [|exists digits; auto].
    rewrite Ha. destruct digits as [|c digits]; [contradiction|].
    cbn [allChars] in Hd. apply andb_true_iff in Hd. destruct Hd as [Hc _].
    unfold experienceNotFound. cbn [append]. intros [= -> _]. discriminate Hc.
  - intros w. destruct (debug_extractAnswer_run input w) as [lines ->]. reflexivity.
Qed.

Lemma experience_rule_answers_with_digits_witness :
  let input := fullPromptOf "I have 12 years of experience" "how many years of experience?" in
  asksName (parsedQuestion input) = false
  /\ asksExperience (parsedQuestion input) = true
  /\ RepoRag.extractAnswer input = "12 years"
  /\ forall w, snd (RepoRagDebug.extractAnswer input w) = Returns (RepoRag.extractAnswer input).
Proof.
  cbv zeta.
  split; [vm_compute; reflexivity|].
  split; [vm_compute; reflexivity|].
  split; [vm_compute; reflexivity|].
  exact (proj2 (experience_rule_answers_with_digits
                  (fullPromptOf "I have 12 years of experience" "how many years of experience?")
                  eq_refl eq_refl)).
Defined.

(** X11.  A prompt in which "Question: " occurs nowhere is returned as it is, by
    both scripts: no rule applies to the empty question. *)
Theorem prompt_without_question_is_returned (input : string) :
  indexOf input questionMarker = None ->
  RepoRag.extractAnswer input = input
  /\ forall w, snd (RepoRagDebug.extractAnswer input w) = Returns input.
Proof.
  intros H.
  assert (Hq : parsedQuestion input = "").
  { unfold parsedQuestion. rewrite (questionMatch_absent input H). reflexivity. }
  assert (He : RepoRag.extractAnswer input = input).
  { unfold RepoRag.extractAnswer. rewrite Hq. reflexivity. }
  split; [exact He|].
  intros w. destruct (debug_extractAnswer_run input w) as [lines ->].
  cbn [snd]. rewrite He. reflexivity.
Qed.

Lemma prompt_without_question_is_returned_witness :
  indexOf "name of the portfolio owner and skills" questionMarker = None
  /\ RepoRag.extractAnswer "name of the portfolio owner and skills"
     = "name of the portfolio owner and skills".
Proof.
  split; [vm_compute; reflexivity|].
  exact (proj1 (prompt_without_question_is_returned
                  "name of the portfolio owner and skills" eq_refl)).
Defined.

(** ** More on the adapter and the chain *)

(** The requests of a run of the instrumented chain. *)
Lemma debug_chain_invoke_requests host question (w : World) :
  requests (fst (RepoRagDebug.chain_invoke host question w))
  = (requests w ++
     match hf (dataStore w),
           Array_map (scoreDocument host (keywordsOf question)) (docs (dataStore w)) with
     | Some _, Returns scores => [generationRequest (fullPromptOf (contextOf scores) question)]
     | _, _ => []
     end)%list.
Proof.
  pose proof (debug_chain_invoke_run host question w) as Hc.
  destruct (Array_map (scoreDocument host (keywordsOf question)) (docs (dataStore w)))
    as [scores|e].
  - destruct Hc as (lines & ->). destruct (hf (dataStore w)); reflexivity.
  - destruct Hc as (lines & ->). destruct (fst_caught e w [] [] lines) as [lines' ->].
    destruct (hf (dataStore w)); reflexivity.
Qed.

(** X12.  A query of the main script sends no request to the generation
    service; a query of the instrumented script sends one request, which
    carries the assembled prompt, when a credential is configured and the
    retrieval returns, and none otherwise. *)
Theorem requests_of_a_query host (question : string) (w : World) :
  requests (fst (RepoRag.chain_invoke host question w)) = requests w
  /\ requests (fst (RepoRagDebug.chain_invoke host question w))
     = (requests w ++
        match hf (dataStore w), snd (RepoRagDebug.retriever_invoke host question w) with
        | Some _, Returns context => [generationRequest (fullPromptOf context question)]
        | _, _ => []
        end)%list.
Proof.
  split.
  - rewrite chain_invoke_run.
    destruct (Array_map (scoreDocument host (keywordsOf question)) (docs (dataStore w)))
      as [scores|[err|v]]; cbn [caught fst after requests]; apply app_nil_r.
  - rewrite debug_chain_invoke_requests, debug_retriever_invoke_result, retriever_invoke_run.
    destruct (hf (dataStore w)),
      (Array_map (scoreDocument host (keywordsOf question)) (docs (dataStore w)));
      reflexivity.
Qed.

(** X13.  Without a credential nothing is generated and nothing is extracted: the
    adapter answers with the sentinel whatever the prompt, and the chain
    answers with the sentinel whenever the retrieval returns.  Both
    scripts. *)
Theorem without_credential_the_answer_is_the_sentinel host (w : World) :
  hf (dataStore w) = None ->
  (forall input,
     RepoRag.llm_invoke input w = (w, Returns unavailable)
     /\ snd (RepoRagDebug.llm_invoke input w) = Returns unavailable
     /\ requests (fst (RepoRagDebug.llm_invoke input w)) = requests w)
  /\ (forall question context,
     snd (RepoRag.retriever_invoke host question w) = Returns context ->
     snd (RepoRag.chain_invoke host question w) = Returns unavailable
     /\ snd (RepoRagDebug.chain_invoke host question w) = Returns unavailable).
Proof.
  intros Hhf. split.
  - intros input. pose proof (debug_llm_invoke_run input w) as Hd. rewrite Hhf in Hd.
    destruct Hd as [lines Hd]. rewrite llm_invoke_run, Hd, Hhf.
    cbn [fst snd after requests]. rewrite app_nil_r. auto.
  - intros question context. pose proof (debug_chain_invoke_run host question w) as Hc.
    rewrite retriever_invoke_run, chain_invoke_run.
    destruct (Array_map (scoreDocument host (keywordsOf question)) (docs (dataStore w)))
      as [scores|e]; [|destruct e; discriminate]. intros _.
    destruct Hc as (lines & ->). rewrite Hhf. auto.
Qed.

Lemma without_credential_the_answer_is_the_sentinel_witness :
  hf (dataStore (world sampleStore None)) = None
  /\ snd (RepoRag.chain_invoke referenceHost "what react skills" (world sampleStore None))
     = Returns unavailable.
Proof.
  split; [reflexivity|].
  exact (proj1 (proj2 (without_credential_the_answer_is_the_sentinel referenceHost
                         (world sampleStore None) eq_refl)
                  "what react skills" sampleContext ltac:(vm_compute; reflexivity))).
Defined.



(** ** The assembly of the prompt *)

Lemma indexOf_prefix (p s : string) : indexOf (p ++ s) p = Some 0.
Proof.
  pose proof (startsWith_append p s) as E.
  destruct (p ++ s); cbn [indexOf]; rewrite E; reflexivity.
Qed.

Lemma includes_char (c : ascii) (v : string) :
  includes v (String c "") = false ->
  allChars (fun x => negb (Ascii.eqb x c)) v = true.
Proof.
  induction v as [|d v IH]; cbn [includes allChars]; [reflexivity|].
  intros H. apply orb_false_iff in H. destruct H as [H1 H2].
  rewrite (IH H2), andb_true_r.
  unfold startsWith in H1. cbn [prefix] in H1.
  destruct (ascii_dec c d) as [->|Hne].
  - destruct v; discriminate H1.
  - apply negb_true_iff, Ascii.eqb_neq. congruence.
Qed.

Lemma GetSubstitution_plain (m b a v : string) :
  allChars (fun x => negb (Ascii.eqb x "$")) v = true ->
  GetSubstitution m b a v = v.
Proof.
  induction v as [|c v IH]; cbn [allChars GetSubstitution]; [reflexivity|].
  intros H. apply andb_true_iff in H. destruct H as [Hc Hv].
  apply negb_true_iff in Hc. rewrite Hc, (IH Hv). reflexivity.
Qed.

Lemma replace_found (a p b v : string) :
  indexOf (a ++ p ++ b) p = Some (String.length a) ->
  replace (a ++ p ++ b) p v = a ++ GetSubstitution p a b v ++ b.
Proof.
  intros H. unfold replace. rewrite H. cbv zeta.
  rewrite take_append, <- drop_drop, drop_append, drop_append. reflexivity.
Qed.

(** A search string that starts with [c] is not found in a text without
    [c]. *)
Lemma indexOf_skip_chars (c : ascii) (p' a s : string) :
  allChars (fun x => negb (Ascii.eqb x c)) a = true ->
  indexOf (a ++ s) (String c p')
  = option_map (Nat.add (String.length a)) (indexOf s (String c p')).
Proof.
  remember (indexOf s (String c p')) as r eqn:Hr.
  induction a as [|d a IH]; cbn [allChars append String.length]; intros H.
  - rewrite <- Hr. destruct r; reflexivity.
  - apply andb_true_iff in H. destruct H as [Hd Ha].
    apply negb_true_iff, Ascii.eqb_neq in Hd.
    cbn [indexOf]. unfold startsWith at 1. cbn [prefix].
    destruct (ascii_dec c d) as [->|_]; [congruence|].
    rewrite (IH Ha). destruct r; reflexivity.
Qed.

(** A search string without [ch] that starts in [x] and is found in
    [x ++ ch ...] lies within [x]. *)
Lemma prefix_within (ch : ascii) (p x rest : string) :
  allChars (fun y => negb (Ascii.eqb y ch)) p = true ->
  prefix p (x ++ String ch rest) = true -> prefix p x = true.
Proof.
  revert x. induction p as [|c p IH]; intros x Hp H; [destruct x; reflexivity|].
  cbn [allChars] in Hp. apply andb_true_iff in Hp. destruct Hp as [Hc Hp].
  apply negb_true_iff, Ascii.eqb_neq in Hc.
  destruct x as [|d x]; cbn [append prefix] in *.
  - destruct (ascii_dec c ch); [congruence | discriminate].
  - destruct (ascii_dec c d); [apply IH; assumption | discriminate].
Qed.

Lemma indexOf_append_absent (ch : ascii) (a p rest : string) :
  includes a p = false ->
  allChars (fun y => negb (Ascii.eqb y ch)) p = true ->
  indexOf (a ++ String ch rest) p
  = option_map (Nat.add (String.length a)) (indexOf (String ch rest) p).
Proof.
  intros Ha Hp. remember (indexOf (String ch rest) p) as r eqn:Hr.
  induction a as [|c a IH]; cbn [append String.length].
  - rewrite <- Hr. destruct r; reflexivity.
  - cbn [includes] in Ha. apply orb_false_iff in Ha. destruct Ha as [H1 H2].
    cbn [indexOf].
    destruct (startsWith (String c (a ++ String ch rest)) p) eqn:E.
    + unfold startsWith in E, H1.
      rewrite (prefix_within ch p (String c a) rest Hp E) in H1. discriminate.
    + rewrite (IH H2). destruct r; reflexivity.
Qed.

Lemma startsWith_shorter (s p q : string) :
  startsWith s (p ++ q) = true -> startsWith s p = true.
Proof.
  unfold startsWith. revert s. induction p as [|c p IH]; intros s H.
  - destruct s; reflexivity.
  - destruct s as [|d s]; cbn [append prefix] in *; [discriminate|].
    destruct (ascii_dec c d); [apply IH; assumption | discriminate].
Qed.

Lemma includes_shorter (s p q : string) :
  includes s p = false -> includes s (p ++ q) = false.
Proof.
  induction s as [|c s IH]; cbn [includes]; intros H;
    apply orb_false_iff in H; destruct H as [H1 H2]; apply orb_false_iff; split;
    try (apply IH; assumption); try reflexivity;
    destruct (startsWith _ (p ++ q)) eqn:E; try reflexivity;
    apply startsWith_shorter in E; congruence.
Qed.

(** The closing marker is first found at the end of a context in which
    "Question:" occurs nowhere. *)
Lemma closingMarker_after_context (context rest : string) :
  includes context "Question:" = false ->
  indexOf (context ++ closingMarker ++ rest) closingMarker
  = Some (String.length context).
Proof.
  induction context as [|c context IH]; intros H.
  - cbn [append String.length]. pose proof (startsWith_append closingMarker rest) as E.
    destruct (closingMarker ++ rest) eqn:D; cbn [indexOf]; rewrite E; reflexivity.
  - pose proof H as H'. cbn [includes] in H'. apply orb_false_iff in H'.
    destruct H' as [_ H2]. cbn [append String.length indexOf].
    rewrite (IH H2). cbn [option_map].
    destruct (startsWith (String c (context ++ closingMarker ++ rest)) closingMarker) eqn:E;
      [exfalso | reflexivity].
    unfold startsWith, closingMarker, nl in E. cbn [append prefix] in E.
    destruct (ascii_dec LF c) as [<-|]; [|discriminate].
    destruct context as [|c2 context]; cbn [append prefix] in E.
    + vm_compute in E. discriminate E.
    + destruct (ascii_dec LF c2) as [<-|]; [|discriminate].
      assert (Hin : prefix "Question:" context = true).
      { apply (prefix_within LF "Question:" context
                 (String LF (String "Q" ("uestion:" ++ rest)))); [reflexivity | exact E]. }
      assert (Hc : includes (String LF (String LF context)) "Question:" = true).
      { apply (includes_at _ _ 2). exact Hin. }
      congruence.
Qed.

(** The prompt with the context in place and the question still to come. *)
Lemma context_is_filled_in (context : string) :
  includes context "$" = false ->
  replace prompt_template "{context}" context
  = (preamble ++ contextMarker) ++ context ++ nl ++ nl ++ questionMarker
      ++ questionPlaceholder ++ nl ++ closing.
Proof.
  intros Hd.
  change prompt_template
    with ((preamble ++ contextMarker) ++ "{context}"
          ++ (nl ++ nl ++ questionMarker ++ questionPlaceholder ++ nl ++ closing)).
  rewrite replace_found by (vm_compute; reflexivity).
  rewrite GetSubstitution_plain by (apply includes_char; exact Hd).
  reflexivity.
Qed.

Lemma question_is_filled_in (a b question : string) :
  includes question "$" = false ->
  indexOf (a ++ questionPlaceholder ++ b) questionPlaceholder = Some (String.length a) ->
  replace (a ++ questionPlaceholder ++ b) "{question}" question = a ++ question ++ b.
Proof.
  intros Hd Hi. change "{question}" with questionPlaceholder.
  rewrite (replace_found _ _ _ _ Hi).
  rewrite GetSubstitution_plain by (apply includes_char; exact Hd).
  reflexivity.
Qed.

(** The prompt with both fields in place. *)
Lemma fullPromptOf_filled (context question : string) :
  includes context "$" = false ->
  includes question "$" = false ->
  includes context "{question}" = false ->
  fullPromptOf context question
  = preamble ++ contextMarker ++ context ++ nl ++ nl
      ++ questionMarker ++ question ++ nl ++ closing.
Proof.
  intros Hc Hq Hp. unfold fullPromptOf. rewrite (context_is_filled_in context Hc).
  set (a := (preamble ++ contextMarker) ++ context ++ nl ++ nl ++ questionMarker).
  assert (Hs : (preamble ++ contextMarker) ++ context ++ nl ++ nl ++ questionMarker
                 ++ questionPlaceholder ++ nl ++ closing
               = a ++ questionPlaceholder ++ nl ++ closing).
  { subst a. rewrite !append_assoc. reflexivity. }
  rewrite Hs, question_is_filled_in.
  - subst a. rewrite !append_assoc. reflexivity.
  - exact Hq.
  - rewrite <- Hs. unfold questionPlaceholder.
    rewrite indexOf_skip_chars by (vm_compute; reflexivity).
    change (nl ++ nl ++ questionMarker ++ "{question}" ++ nl ++ closing)
      with (String LF (nl ++ questionMarker ++ "{question}" ++ nl ++ closing)).
    rewrite (indexOf_append_absent LF) by (assumption || reflexivity).
    subst a. rewrite !length_append. vm_compute indexOf. reflexivity.
Qed.

(** X15.  A context and a question without "$", where "{question}" does not
    occur in the context, are put in place of the two placeholders of the
    template and nothing else is changed. *)
Theorem prompt_is_filled_in (context question : string) :
  includes context "$" = false ->
  includes question "$" = false ->
  includes context "{question}" = false ->
  fullPromptOf context question
  = preamble ++ contextMarker ++ context ++ nl ++ nl
      ++ questionMarker ++ question ++ nl ++ closing.
Proof. exact (fullPromptOf_filled context question). Qed.

Lemma prompt_is_filled_in_witness :
  fullPromptOf "Navdeep Singh knows React" "What skills?"
  = preamble ++ contextMarker ++ "Navdeep Singh knows React" ++ nl ++ nl
      ++ questionMarker ++ "What skills?" ++ nl ++ closing.
Proof.
  exact (prompt_is_filled_in "Navdeep Singh knows React" "What skills?"
           eq_refl eq_refl eq_refl).
Defined.

(** A search string that fits into [s] is found at the head of [s ++ b]
    exactly when it is found at the head of [s]. *)
Lemma prefix_app_long (p s b : string) :
  String.length p <= String.length s -> prefix p (s ++ b) = prefix p s.
Proof.
  revert s. induction p as [|c p IH]; intros s H.
  - destruct s, b; reflexivity.
  - destruct s as [|d s]; cbn [String.length] in H; [lia|].
    cbn [append prefix]. destruct (ascii_dec c d); [apply IH; lia | reflexivity].
Qed.

(** The first occurrence of [p] in [a ++ p ++ b] is the first one whatever
    follows it. *)
Lemma indexOf_first (a p b c : string) :
  indexOf (a ++ p ++ b) p = Some (String.length a) ->
  indexOf (a ++ p ++ c) p = Some (String.length a).
Proof.
  induction a as [|ch a IH]; cbn [append String.length]; intros H.
  - apply indexOf_prefix.
  - cbn [indexOf] in *.
    assert (E : forall x, startsWith (String ch (a ++ p ++ x)) p
                          = prefix p (String ch a ++ p)).
    { intros x. unfold startsWith.
      change (String ch (a ++ p ++ x)) with (String ch a ++ p ++ x).
      rewrite <- append_assoc. apply prefix_app_long.
      rewrite length_append. lia. }
    rewrite E in *. destruct (prefix p (String ch a ++ p)); [discriminate|].
    destruct (indexOf (a ++ p ++ b) p) as [n|]; cbn [option_map] in H; [|discriminate].
    injection H as ->. rewrite (IH eq_refl). reflexivity.
Qed.

(** X16.  For a context and a question without "$": a context in which
    "{question}" occurs takes the question at the first occurrence.  The
    first replacement has put the context before the placeholder of the
    template, so the second one fills the occurrence in the context and
    leaves the placeholder of the template as it is. *)
Theorem placeholder_in_context_takes_the_question (a b question : string) :
  indexOf (a ++ "{question}" ++ b) "{question}" = Some (String.length a) ->
  includes (a ++ "{question}" ++ b) "$" = false ->
  includes question "$" = false ->
  fullPromptOf (a ++ "{question}" ++ b) question
  = preamble ++ contextMarker ++ (a ++ question ++ b) ++ nl ++ nl
      ++ questionMarker ++ "{question}" ++ nl ++ closing.
Proof.
  intros Ha Hc Hq. unfold fullPromptOf.
  rewrite (context_is_filled_in _ Hc).
  set (tail := b ++ nl ++ nl ++ questionMarker ++ questionPlaceholder ++ nl ++ closing).
  assert (Hs : (preamble ++ contextMarker) ++ (a ++ "{question}" ++ b) ++ nl ++ nl
                 ++ questionMarker ++ questionPlaceholder ++ nl ++ closing
               = ((preamble ++ contextMarker) ++ a) ++ questionPlaceholder ++ tail).
  { subst tail. unfold questionPlaceholder. rewrite !append_assoc. reflexivity. }
  rewrite Hs, question_is_filled_in.
  - subst tail. unfold questionPlaceholder. rewrite !append_assoc. reflexivity.
  - exact Hq.
  - unfold questionPlaceholder. rewrite append_assoc.
    rewrite indexOf_skip_chars by (vm_compute; reflexivity).
    rewrite (indexOf_first a "{question}" b tail Ha). cbn [option_map].
    rewrite length_append. reflexivity.
Qed.

Lemma placeholder_in_context_takes_the_question_witness :
  fullPromptOf "see {x}: {question} here" "What skills?"
  = preamble ++ contextMarker ++ "see {x}: What skills? here" ++ nl ++ nl
      ++ questionMarker ++ "{question}" ++ nl ++ closing.
Proof.
  exact (placeholder_in_context_takes_the_question "see {x}: " " here" "What skills?"
           eq_refl eq_refl eq_refl).
Defined.

(** X17.  What the chain assembles, the extractor reads back: for a context and
    a question without "$", the context not empty and free of "{question}"
    and of "Question:", the question not empty and free of line
    terminators, the fields read from the assembled prompt are the context
    and the question, lower-cased. *)
Theorem assembled_prompt_is_read_back (context question : string) :
  includes context "$" = false ->
  includes question "$" = false ->
  includes context "{question}" = false ->
  includes context "Question:" = false ->
  context <> "" ->
  question <> "" ->
  allChars (fun c => negb (isLineTerminator c)) question = true ->
  parsedQuestion (fullPromptOf context question) = toLowerCase question
  /\ parsedContext (fullPromptOf context question) = toLowerCase context.
Proof.
  intros Hc Hq Hp Hm Hcne Hqne Hline.
  rewrite (fullPromptOf_filled context question Hc Hq Hp).
  split.
  - unfold parsedQuestion.
    assert (Hs : preamble ++ contextMarker ++ context ++ nl ++ nl
                   ++ questionMarker ++ question ++ nl ++ closing
                 = ((preamble ++ contextMarker) ++ context ++ nl ++ nl)
                     ++ questionMarker ++ question ++ nl ++ closing).
    { rewrite !append_assoc. reflexivity. }
    rewrite Hs, questionMatch_found; [reflexivity | | assumption | assumption].
    rewrite <- Hs. unfold questionMarker at 2.
    rewrite <- (append_assoc preamble).
    rewrite indexOf_skip_chars by (vm_compute; reflexivity).
    change (nl ++ nl ++ questionMarker ++ question ++ nl ++ closing)
      with (String LF (nl ++ questionMarker ++ question ++ nl ++ closing)).
    rewrite (indexOf_append_absent LF);
      [| apply (includes_shorter context "Question:" " "); exact Hm | reflexivity].
    change (String LF (nl ++ questionMarker ++ question ++ nl ++ closing))
      with (String LF (String LF (questionMarker ++ question ++ nl ++ closing))).
    cbn [indexOf]. unfold startsWith at 1 2. cbn [prefix].
    destruct (ascii_dec "Q" LF) as [e|_]; [discriminate e|].
    change "Question: " with questionMarker. rewrite indexOf_prefix.
    cbn [option_map]. rewrite !length_append. reflexivity.
  - unfold parsedContext.
    change (preamble ++ contextMarker ++ context ++ nl ++ nl
              ++ questionMarker ++ question ++ nl ++ closing)
      with (preamble ++ contextMarker ++ context ++ closingMarker
              ++ (" " ++ question ++ nl ++ closing)).
    rewrite contextMatch_found; [reflexivity | | assumption | ].
    + unfold contextMarker at 2. cbn [append].
      rewrite indexOf_skip_chars by (vm_compute; reflexivity).
      change (String "C" ("ontext:" ++ nl)) with contextMarker.
      rewrite indexOf_prefix. cbn [option_map]. rewrite Nat.add_0_r. reflexivity.
    + apply closingMarker_after_context. exact Hm.
Qed.

Lemma assembled_prompt_is_read_back_witness :
  parsedQuestion (fullPromptOf "Navdeep Singh knows React" "What skills?") = "what skills?"
  /\ parsedContext (fullPromptOf "Navdeep Singh knows React" "What skills?")
     = "navdeep singh knows react".
Proof.
  exact (assembled_prompt_is_read_back "Navdeep Singh knows React" "What skills?"
           eq_refl eq_refl eq_refl eq_refl
           ltac:(discriminate) ltac:(discriminate) eq_refl).
Defined.

(** ** Ingestion and the entry point *)

Lemma run_library {A} (call : list Diagnostic * Outcome A) w new sent lines :
  library call (after w new sent lines) = (after w new sent (lines ++ fst call), snd call).
Proof. unfold library, after. cbn. rewrite app_assoc. reflexivity. Qed.

Lemma ingestRepo_run env lib (w : World) :
  ingestRepo env lib "NavdeepSingh16-98" "portfolio" "main" w =
  match GithubRepoLoader_load lib portfolioUrl (portfolioOptions env) with
  | (warnings, Throws e) => (after w [] [] (ingesting :: warnings), Throws e)
  | (warnings, Returns raw) =>
      match RecursiveCharacterTextSplitter_splitDocuments lib 1000 200 raw with
      | (written, Throws e) =>
          (after w [] [] (ingesting :: warnings ++ loaded raw :: written), Throws e)
      | (written, Returns chunks) =>
          (after w [] [] (ingested warnings written raw chunks),
           Returns {| docs := chunks; hf := credential env lib |})
      end
  end.
Proof.
  unfold ingestRepo, console_log.
  change ("https://github.com/" ++ "NavdeepSingh16-98" ++ "/" ++ "portfolio")
    with portfolioUrl.
  change {| branch := "main"; recursive := true; unknown := "warn";
            accessToken := GITHUB_TOKEN env |} with (portfolioOptions env).
  unfold bind at 1. rewrite console_write_run.
  unfold bind at 1. rewrite run_library.
  destruct (GithubRepoLoader_load lib portfolioUrl (portfolioOptions env))
    as [warnings [raw|e]]; cbn [fst snd app]; [|reflexivity].
  unfold bind at 1. rewrite run_console_write.
  unfold bind at 1. rewrite run_library.
  destruct (RecursiveCharacterTextSplitter_splitDocuments lib 1000 200 raw)
    as [written [chunks|e]]; cbn [fst snd].
  - unfold bind at 1. rewrite run_console_write.
    unfold bind at 1. rewrite run_console_write.
    unfold ret, ingested. cbn [app]. rewrite <- !app_assoc. reflexivity.
  - rewrite <- !app_assoc. reflexivity.
Qed.


(** X18.  When the loader or the splitter throws, the script logs what was
    thrown on the error stream and settles: no chain is created and no
    query is run, so the store, the arrays and the requests are as before,
    and the console holds the lines of the ingestion up to the failure,
    with what the loader and the splitter wrote themselves, and then the
    error.  Both scripts. *)
Theorem failed_ingestion_ends_the_run host env lib (w : World) (e : Thrown)
    (lines : list Diagnostic) :
  (exists warnings,
     GithubRepoLoader_load lib portfolioUrl (portfolioOptions env) = (warnings, Throws e)
     /\ lines = ingesting :: warnings)
  \/ (exists warnings raw written,
        GithubRepoLoader_load lib portfolioUrl (portfolioOptions env)
          = (warnings, Returns raw)
        /\ RecursiveCharacterTextSplitter_splitDocuments lib 1000 200 raw
           = (written, Throws e)
        /\ lines = (ingesting :: warnings ++ loaded raw :: written)%list) ->
  RepoRagScript.script host env lib w
    = (after w [] [] (lines ++ [line stderr "" (shown e)]), Returns tt)
  /\ RepoRagDebugScript.script host env lib w
    = (after w [] [] (lines ++ [line stderr "" (shown e)]), Returns tt).
Proof.
  intros H.
  assert (Hi : ingestRepo env lib "NavdeepSingh16-98" "portfolio" "main" w
               = (after w [] [] lines, Throws e)).
  { rewrite ingestRepo_run.
    destruct H as [(warnings & -> & ->) | (warnings & raw & written & -> & -> & ->)];
      reflexivity. }
  split.
  - unfold RepoRagScript.script, RepoRagScript.main, tryCatch.
    unfold bind at 1. rewrite Hi. unfold console_error.
    rewrite run_console_write. reflexivity.
  - unfold RepoRagDebugScript.script, RepoRagDebugScript.main, tryCatch.
    unfold bind at 1. rewrite Hi. unfold console_error.
    rewrite run_console_write. reflexivity.
Qed.

Lemma failed_ingestion_ends_the_run_witness :
  let e := Exception {| name := "Error"; message := "Not Found" |} in
  let warning := line stderr "Failed to fetch file content" [Text "logo.png"] in
  let lib := libraries [warning] (Throws e) (Returns []) in
  let env := {| GITHUB_TOKEN := None; HF_API_KEY := Some "hf_key" |} in
  GithubRepoLoader_load lib portfolioUrl (portfolioOptions env) = ([warning], Throws e)
  /\ fst (RepoRagScript.script referenceHost env lib start)
     = after start [] []
         [ingesting; warning; line stderr "" [Text "Error"; Text "Not Found"]].
Proof.
  cbv zeta. split; [reflexivity|].
  exact (f_equal fst
           (proj1 (failed_ingestion_ends_the_run referenceHost
                     {| GITHUB_TOKEN := None; HF_API_KEY := Some "hf_key" |}
                     (libraries [line stderr "Failed to fetch file content" [Text "logo.png"]]
                        (Throws (Exception {| name := "Error"; message := "Not Found" |}))
                        (Returns []))
                     start (Exception {| name := "Error"; message := "Not Found" |})
                     [ingesting; line stderr "Failed to fetch file content" [Text "logo.png"]]
                     (or_introl (ex_intro _ _ (conj eq_refl eq_refl)))))).
Defined.


